(** * accelerator2pitch: chunked sample buffer, playback engine, rate controller

    A shallow embedding of
      - [FloatArrayWrapper.ts]  (the chunked sample buffer),
      - [AudioController.ts]    (the per-tick frame synthesis), and
      - [AccelerationToRate.ts] (the motion-to-rate controller),
    followed by the properties of the specification that concern them.

    Numbers.  A TypeScript [number] is an IEEE 754 binary64 value; it is
    modelled by Rocq's primitive [float], whose operations are the binary64
    ones.  Counts and indices ([currentElementCount], [idx], loop counters)
    are integer-valued numbers; they are modelled by [Z], which agrees with
    the source as long as a count stays below 2^53.  Elements of a
    [Float32Array] are single-precision values; they are kept abstract behind
    the [Float32] interface, with a binary64-backed instance for running the
    model.  Where a property bounds a rounding error, the value of a finite
    binary64 number is taken as a rational number ([NumSpec.value]). *)

From Stdlib Require Import ZArith Lia Floats.
From Stdlib Require Import QArith Qabs Qminmax Qpower Lqa.
From stdpp Require Import base list.

Set Warnings "-inexact-float".
Close Scope Q_scope.
Local Open Scope Z_scope.

(** ** JavaScript numbers *)

Module Num.

(** [ToNumber] of an integer: the nearest binary64 value (exact below 2^53). *)
Definition of_Z (z : Z) : float :=
  SF2Prim (binary_normalize prec emax z 0 false).

(** [a >= b] on numbers: false as soon as one side is NaN. *)
Definition geb (a b : float) : bool := (b <=? a)%float.

(** [Math.round]: the integer nearest to [x], ties towards +Infinity.
    [Some k] stands for the integer [k] (with -0 read as 0), [None] for a
    result that is NaN or an infinity.  The value of a finite float is
    [±m * 2^e]; the rounding is done on that exact value. *)
Definition Math_round (x : float) : option Z :=
  match Prim2SF x with
  | S754_zero _ => Some 0
  | S754_finite s m e =>
      let sm := cond_Zopp s (Z.pos m) in
      if 0 <=? e then Some (sm * 2 ^ e)
      else Some ((2 * sm + 2 ^ (- e)) / 2 ^ (1 - e))
  | S754_infinity _ | S754_nan => None
  end.

(** [Math.min] and [Math.max] of two numbers: NaN if either is NaN, and
    -0 counts as smaller than +0. *)
Definition Math_min (a b : float) : float :=
  if is_nan a || is_nan b then nan
  else if (a <? b)%float then a
  else if (b <? a)%float then b
  else if get_sign a then a else b.

Definition Math_max (a b : float) : float :=
  if is_nan a || is_nan b then nan
  else if (a <? b)%float then b
  else if (b <? a)%float then a
  else if get_sign a then b else a.

End Num.

(** ** Float32Array *)

(** The element type of a [Float32Array] with the two conversions the
    language performs: reading an element yields a number, storing a number
    rounds it to single precision ([Math.fround]). *)
Class Float32 := {
  f32 : Type;
  f32_zero : f32;
  f32_nan : f32;
  f32_to_number : f32 → float;
  fround : float → f32;
}.

(** Single-precision rounding of a binary64 value, kept as a binary64 value. *)
Definition fround64 (x : float) : float :=
  match Prim2SF x with
  | S754_finite s m e => SF2Prim (binary_round 24 128 s m e)
  | _ => x
  end.

Definition Float32_binary64 : Float32 :=
  {| f32 := float; f32_zero := 0%float; f32_nan := nan;
     f32_to_number := λ x, x; fround := fround64 |}.

Module TypedArray.
Section TypedArray.
Context {F : Float32}.

(** [new Float32Array(n)]: [n] elements, all +0. *)
Definition make (n : Z) : list f32 := replicate (Z.to_nat n) f32_zero.

(** [new Float32Array(n)] where [n] is an integer the caller does not
    control: a negative length throws a [RangeError], here [None], and so
    does a length beyond what the host allocates; [fits] tells which
    lengths the host allocates. *)
Definition alloc (fits : Z → bool) (n : Z) : option (list f32) :=
  if (n <? 0) || negb (fits n) then None else Some (make n).

(** [a[j]]: [None] is [undefined], the result outside [0 .. length-1]. *)
Definition get (a : list f32) (j : Z) : option f32 :=
  if j <? 0 then None else a !! Z.to_nat j.

(** [a[j] = v] for an element [v]: ignored outside [0 .. length-1]. *)
Definition set (a : list f32) (j : Z) (v : f32) : list f32 :=
  if j <? 0 then a else <[Z.to_nat j := v]> a.

(** [ToNumber(undefined)] is NaN: what a store of [src[j]] writes. *)
Definition get_or_nan (a : list f32) (j : Z) : f32 :=
  default f32_nan (get a j).

(** [a[j] = x] for a number [x]: the element becomes [Math.fround(x)]. *)
Definition set_number (a : list f32) (j : Z) (x : float) : list f32 :=
  set a j (fround x).

End TypedArray.
End TypedArray.

(** ** Exceptions *)

(** How a method that can throw ends: it returns, or it throws a
    [RangeError]; either way [s] is the state it leaves behind. *)
Inductive outcome (S : Type) : Type :=
  | Returned (s : S)
  | RangeError (s : S).
Arguments Returned {S} s.
Arguments RangeError {S} s.

(** ** Loops *)

(** [for (let i = i0; i < i0 + n; i++) body]: [n] runs of [body], with the
    counter handed to it. *)
Fixpoint for_loop {S : Type} (n : nat) (i : Z) (body : Z → S → S) (s : S) : S :=
  match n with
  | O => s
  | S n' => for_loop n' (i + 1) body (body i s)
  end.

(** [Math.ceil(a / d)] for integers [a] and [d > 0]. *)
Definition ceil_div (a d : Z) : Z := - ((- a) / d).

(** A plain array read [l[k]]: [undefined] outside the array. *)
Definition array_get {A} (l : list A) (k : Z) : option A :=
  if k <? 0 then None else l !! Z.to_nat k.

(** ** FloatArrayWrapper.ts *)

Module FloatArrayWrapper.
Section Buffer.
Context {F : Float32}.

Record t := mk {
  dataList : list (list f32);
  currentElementCount : Z;
}.

Definition innerArraySize : Z := 4096.

(** The constructor. *)
Definition new : t := {| dataList := []; currentElementCount := 0 |}.

Definition createAdditionalInnerArrays (b : t) (arraysCount : Z) : t :=
  for_loop (Z.to_nat arraysCount) 0
    (λ _ b, {| dataList := dataList b ++ [TypedArray.make innerArraySize];
               currentElementCount := currentElementCount b |})
    b.

(** One run of the copy loop of [push]; [c] is [currentCopiedElementIndex]. *)
Definition push_copy (floatArray : list f32) (c : Z) (b : t) : t :=
  let dataArrayIndex := currentElementCount b / innerArraySize in
  let innerArrayIndex := Z.rem (currentElementCount b) innerArraySize in
  let dataList' :=
    match array_get (dataList b) dataArrayIndex with
    | Some chunk =>
        <[Z.to_nat dataArrayIndex :=
            TypedArray.set chunk innerArrayIndex
              (TypedArray.get_or_nan floatArray c)]> (dataList b)
    | None => dataList b
    end in
  {| dataList := dataList'; currentElementCount := currentElementCount b + 1 |}.

Definition push (b : t) (floatArray : list f32) (arrayRealSize : Z) : t :=
  let availableElementsInCurrentArray :=
    innerArraySize - Z.rem (currentElementCount b) innerArraySize in
  let availableElementsInCurrentArray :=
    if Z.rem (currentElementCount b) innerArraySize =? 0 then 0
    else availableElementsInCurrentArray in
  let additionalElementsCount := arrayRealSize - availableElementsInCurrentArray in
  let arraysToAddCount := ceil_div additionalElementsCount innerArraySize in
  let b := createAdditionalInnerArrays b arraysToAddCount in
  for_loop (Z.to_nat arrayRealSize) 0 (push_copy floatArray) b.

(** [shift]: the first chunk, or [None] for [undefined]. *)
Definition shift (b : t) : option (list f32) * t :=
  match dataList b with
  | [] => (None, b)
  | chunk :: rest =>
      (Some chunk, {| dataList := rest; currentElementCount := currentElementCount b |})
  end.

(** [getElement] at an integer index.  When the chunk exists the index is
    not negative and [idx % 4096] is inside it, so the inner read is never
    [undefined]; the model maps that case to NaN. *)
Definition getElement (b : t) (idx : Z) : f32 :=
  let arrayIndex := idx / innerArraySize in
  let elementInArrayIdx := Z.rem idx innerArraySize in
  match array_get (dataList b) arrayIndex with
  | Some chunk => TypedArray.get_or_nan chunk elementInArrayIdx
  | None => f32_zero
  end.

Definition getSize (b : t) : Z := currentElementCount b.

Definition clear (b : t) : t := {| dataList := []; currentElementCount := 0 |}.

(** [getSizeInBytes]; the [BYTES_PER_ELEMENT] of a [Float32Array] is 4. *)
Definition getSizeInBytes (b : t) : Z :=
  match array_get (dataList b) 0 with
  | Some _ => currentElementCount b * 4
  | None => 0
  end.

(** The helper [getFloatArrayWithIncreasingSequence]: [arr[i] = i] for
    [i = 0 .. arrSize-1], each number stored as the array stores it. *)
Definition getFloatArrayWithIncreasingSequence (arrSize : Z) : list f32 :=
  for_loop (Z.to_nat arrSize) 0
    (λ i arr, TypedArray.set_number arr i (Num.of_Z i))
    (TypedArray.make arrSize).

End Buffer.
End FloatArrayWrapper.

(** ** AudioController.ts *)

Module AudioController.
Section Engine.
Context {F : Float32}.

Record t := mk {
  rate : float;
  volume : float;
  audioData : option FloatArrayWrapper.t;
  resultFrame : option (list f32);
  phase : float;
  trackOnDeck : bool;
}.

(** A call [audioOutput.enqueueAudioFrame(frame, new vec3(size, 1, 1))]. *)
Record enqueued := Enqueue { frame : list f32; frameSize : Z }.

(** [audioData.getElement(Math.round(phase))].  For an index that is NaN or
    an infinity, [Math.floor(idx / 4096)] is again NaN or an infinity, no
    chunk is found under that key, and [getElement] returns 0. *)
Definition getElementAt (data : FloatArrayWrapper.t) (index : option Z) : f32 :=
  match index with
  | Some idx => FloatArrayWrapper.getElement data idx
  | None => f32_zero
  end.

(** The body of the loop of [play]; the state is [(phase, resultFrame)]. *)
Definition play_body (data : FloatArrayWrapper.t) (rate volume : float)
    (i : Z) (st : float * list f32) : float * list f32 :=
  let phase := (st.1 + rate)%float in
  let audioSourceUpdateData :=
    (f32_to_number (getElementAt data (Num.Math_round phase)) * volume)%float in
  (phase, TypedArray.set_number st.2 i audioSourceUpdateData).

(** [play], with [size] the value of [audioOutput.getPreferredFrameSize()]
    ([audioOutput] is set in [onAwake] before [play] is bound to the update
    event); the result lists the frames handed to the audio sink. *)
Definition play (size : Z) (s : t) : t * list enqueued :=
  match resultFrame s, trackOnDeck s, audioData s with
  | Some frame0, true, Some data =>
      let st := for_loop (Z.to_nat size) 0
                  (play_body data (rate s) (volume s)) (phase s, frame0) in
      let phase' :=
        if Num.geb st.1 (Num.of_Z (FloatArrayWrapper.getSize data))
           || (rate s =? 0)%float
        then 0%float else st.1 in
      ({| rate := rate s; volume := volume s; audioData := audioData s;
          resultFrame := Some st.2; phase := phase';
          trackOnDeck := trackOnDeck s |},
       [Enqueue st.2 size])
  | _, _, _ => (s, [])
  end.

(** [setTrack], with the loaded buffers and the source's [maxFrameSize].
    [phase] and [audioData] are assigned before the two frames are
    allocated, so they keep their new values when the allocation throws;
    [resultFrame] and [trackOnDeck] are assigned after it.  ([audioFrame] is
    allocated here and never read.) *)
Definition setTrack (fits : Z → bool)
    (audioArrays : list FloatArrayWrapper.t) (maxFrameSize : Z)
    (s : t) : outcome t :=
  let s := {| rate := rate s; volume := volume s;
              audioData := audioArrays !! 0%nat;
              resultFrame := resultFrame s;
              phase := 0%float;
              trackOnDeck := trackOnDeck s |} in
  match TypedArray.alloc fits maxFrameSize with
  | None => RangeError s
  | Some audioFrame =>
      match TypedArray.alloc fits maxFrameSize with
      | None => RangeError s
      | Some resultFrame' =>
          Returned {| rate := rate s; volume := volume s;
                      audioData := audioData s;
                      resultFrame := Some resultFrame';
                      phase := phase s;
                      trackOnDeck := true |}
      end
  end.

(** The assignment [audioController.rate = r]. *)
Definition set_rate (r : float) (s : t) : t :=
  {| rate := r; volume := volume s; audioData := audioData s;
     resultFrame := resultFrame s; phase := phase s;
     trackOnDeck := trackOnDeck s |}.

(** One call [audioSource.getAudioBuffer(audioFrame, 4096)] as [loadTracks]
    sees it: the content of [audioFrame] after the call and the [x] of the
    shape it returns. *)
Record pull := Pull { pulled : list f32; pulled_x : Z }.

(** The control of an input track: its [maxFrameSize] and the answers of its
    source to successive [getAudioBuffer] calls; once they are used up the
    source answers [x = 0]. *)
Record track := Track { maxFrameSize : Z; pulls : list pull }.

(** The pull loop of [loadTracks] for one track: push every frame until the
    source answers [x = 0]. *)
Fixpoint loadTracks_pull (source : list pull) (audioData : FloatArrayWrapper.t)
    : FloatArrayWrapper.t :=
  match source with
  | [] => audioData
  | audioFrameShape :: source' =>
      if pulled_x audioFrameShape =? 0 then audioData
      else loadTracks_pull source'
             (FloatArrayWrapper.push audioData (pulled audioFrameShape)
                (pulled_x audioFrameShape))
  end.

(** The loop of [loadTracks] from track [i] on, [inputTrack] being the
    tracks not yet loaded and [audioArrays] the buffers stored so far (as
    many as the tracks already loaded, so that [audioArrays[i] = audioData]
    appends).  The frame of a track is allocated before its source is read:
    a [maxFrameSize] that is negative or too large throws, and the loop
    ends there. *)
Fixpoint loadTracks_from (fits : Z → bool) (inputTrack : list track)
    (audioArrays : list FloatArrayWrapper.t)
    : outcome (list FloatArrayWrapper.t) :=
  match inputTrack with
  | [] => Returned audioArrays
  | audioSource :: inputTrack' =>
      let audioData := FloatArrayWrapper.new in
      match TypedArray.alloc fits (maxFrameSize audioSource) with
      | None => RangeError audioArrays
      | Some audioFrame =>
          let audioData := loadTracks_pull (pulls audioSource) audioData in
          loadTracks_from fits inputTrack' (audioArrays ++ [audioData])
      end
  end.

(** [loadTracks], on the empty [audioArrays] the class starts with: the
    value of [audioArrays] when it ends. *)
Definition loadTracks (fits : Z → bool) (inputTrack : list track)
    : outcome (list FloatArrayWrapper.t) :=
  loadTracks_from fits inputTrack [].

(** The part of [onAwake] that builds the engine state: load the tracks and
    put the first one on deck if there is one.  The state is [audioArrays]
    and the engine.  [play] is bound to the update event by the statements
    that follow, which run only when this part has returned. *)
Definition onAwake (fits : Z → bool) (inputTrack : list track) (s : t)
    : outcome (list FloatArrayWrapper.t * t) :=
  match loadTracks fits inputTrack with
  | RangeError audioArrays => RangeError (audioArrays, s)
  | Returned audioArrays =>
      match inputTrack with
      | [] => Returned (audioArrays, s)
      | first :: _ =>
          match setTrack fits audioArrays (maxFrameSize first) s with
          | RangeError s' => RangeError (audioArrays, s')
          | Returned s' => Returned (audioArrays, s')
          end
      end
  end.

End Engine.
End AudioController.

(** ** AccelerationToRate.ts *)

Module AccelerationToRate.

(** The two getters of [AccelerationCalculator] that [updateRate] reads. *)
Record motion := Motion {
  velocityMagnitude : float;
  accelerationMagnitude : float;
}.

Record t := mk {
  baseRate : float;
  useVelocity : bool;
  sensitivity : float;
  minRate : float;
  maxRate : float;
  smoothing : float;
  motionThreshold : float;
  currentRate : float;
  targetRate : float;
}.

(** The field initialisers of the class. *)
Definition defaults : t :=
  {| baseRate := 1.0; useVelocity := true; sensitivity := 2.0;
     minRate := 0.3; maxRate := 3.0; smoothing := 0.7;
     motionThreshold := 0.05; currentRate := 1.0; targetRate := 1.0 |}.

Definition with_rates (s : t) (current target : float) : t :=
  {| baseRate := baseRate s; useVelocity := useVelocity s;
     sensitivity := sensitivity s; minRate := minRate s;
     maxRate := maxRate s; smoothing := smoothing s;
     motionThreshold := motionThreshold s;
     currentRate := current; targetRate := target |}.

Definition calculateTargetRate (s : t) (motionMagnitude : float) : float :=
  let rateMultiplier := (1.0 + motionMagnitude * sensitivity s)%float in
  let targetRate := (baseRate s * rateMultiplier)%float in
  targetRate.

Definition applySmoothingToRate (s : t) (currentRate targetRate : float) : float :=
  let alpha := smoothing s in
  let oneMinusAlpha := (1.0 - alpha)%float in
  (oneMinusAlpha * targetRate + alpha * currentRate)%float.

(** [updateRate]: the controller and the engine after one tick.  The debug
    printing at its end has no effect on either. *)
Definition updateRate {F : Float32} (calc : motion) (s : t)
    (audioController : AudioController.t) : t * AudioController.t :=
  let motionMagnitude :=
    if useVelocity s then velocityMagnitude calc
    else accelerationMagnitude calc in
  let targetRate' :=
    if (motionMagnitude <? motionThreshold s)%float then baseRate s
    else calculateTargetRate s motionMagnitude in
  let currentRate' := applySmoothingToRate s (currentRate s) targetRate' in
  let currentRate' :=
    Num.Math_max (minRate s) (Num.Math_min (maxRate s) currentRate') in
  (with_rates s currentRate' targetRate',
   AudioController.set_rate currentRate' audioController).

(** [resetRate]. *)
Definition resetRate {F : Float32} (s : t) (audioController : AudioController.t)
    : t * AudioController.t :=
  (with_rates s (baseRate s) (baseRate s),
   AudioController.set_rate (baseRate s) audioController).

(** [setEnabled]: the controller, the engine and the new [enabled] flag of
    the component. *)
Definition setEnabled {F : Float32} (enabled : bool) (s : t)
    (audioController : AudioController.t) : t * AudioController.t * bool :=
  (if enabled then (s, audioController) else resetRate s audioController,
   enabled).

Definition getCurrentRate (s : t) : float := currentRate s.

Definition getTargetRate (s : t) : float := targetRate s.

End AccelerationToRate.

(** ** AccelerationCalculator.ts *)

(** The host's [vec3], as far as the calculator uses it. *)
Class Vec3 := {
  vec3 : Type;
  vec3_new : float → float → float → vec3;
  vec3_x : vec3 → float;
  vec3_y : vec3 → float;
  vec3_z : vec3 → float;
  vec3_zero : vec3;
  vec3_sub : vec3 → vec3 → vec3;
  vec3_uniformScale : vec3 → float → vec3;
  vec3_length : vec3 → float;
}.

Module AccelerationCalculator.
Section Calculator.
Context {V : Vec3}.

(** [hasTarget] tells whether [targetObject] is set; its world position and
    the time are read from the host at each call and are arguments here. *)
Record t := mk {
  hasTarget : bool;
  smoothingFactor : float;
  velocityThreshold : float;
  previousPosition : option vec3;
  previousVelocity : vec3;
  currentVelocity : vec3;
  smoothedVelocity : vec3;
  acceleration : vec3;
  previousTime : float;
}.

Definition velocityMagnitude (s : t) : float := vec3_length (smoothedVelocity s).

Definition accelerationMagnitude (s : t) : float := vec3_length (acceleration s).

(** [a > b] on numbers. *)
Definition isMoving (s : t) : bool :=
  (velocityThreshold s <? velocityMagnitude s)%float.

Definition applySmoothing (s : t) (previousValue currentValue : vec3) : vec3 :=
  let alpha := smoothingFactor s in
  let oneMinusAlpha := (1.0 - alpha)%float in
  vec3_new
    (oneMinusAlpha * vec3_x currentValue + alpha * vec3_x previousValue)%float
    (oneMinusAlpha * vec3_y currentValue + alpha * vec3_y previousValue)%float
    (oneMinusAlpha * vec3_z currentValue + alpha * vec3_z previousValue)%float.

(** [calculateMotionValues], with [getTime()] and the target's world
    position as arguments. *)
Definition calculateMotionValues (currentTime : float) (currentPosition : vec3)
    (s : t) : t :=
  let deltaTime := (currentTime - previousTime s)%float in
  if (deltaTime <=? 0)%float then s
  else
    let currentVelocity' :=
      match previousPosition s with
      | Some previous =>
          let positionDelta := vec3_sub currentPosition previous in
          vec3_uniformScale positionDelta (1.0 / deltaTime)%float
      | None => currentVelocity s
      end in
    let smoothedVelocity' := applySmoothing s (smoothedVelocity s) currentVelocity' in
    let velocityDelta := vec3_sub smoothedVelocity' (previousVelocity s) in
    let acceleration' := vec3_uniformScale velocityDelta (1.0 / deltaTime)%float in
    {| hasTarget := hasTarget s; smoothingFactor := smoothingFactor s;
       velocityThreshold := velocityThreshold s;
       previousPosition := Some currentPosition;
       previousVelocity := smoothedVelocity';
       currentVelocity := currentVelocity';
       smoothedVelocity := smoothedVelocity';
       acceleration := acceleration';
       previousTime := currentTime |}.

(** [updateCalculations]; its printing has no effect on the state. *)
Definition updateCalculations (currentTime : float) (currentPosition : vec3)
    (s : t) : t :=
  if hasTarget s then calculateMotionValues currentTime currentPosition s
  else s.

(** [reset], with [getTime()] and the target's world position as arguments. *)
Definition reset (currentTime : float) (currentPosition : vec3) (s : t) : t :=
  {| hasTarget := hasTarget s; smoothingFactor := smoothingFactor s;
     velocityThreshold := velocityThreshold s;
     previousPosition := if hasTarget s then Some currentPosition else None;
     previousVelocity := vec3_zero;
     currentVelocity := vec3_zero;
     smoothedVelocity := vec3_zero;
     acceleration := vec3_zero;
     previousTime := currentTime |}.

(** What [AccelerationToRate.updateRate] reads from the calculator. *)
Definition readings (s : t) : AccelerationToRate.motion :=
  AccelerationToRate.Motion (velocityMagnitude s) (accelerationMagnitude s).

End Calculator.
End AccelerationCalculator.

(** * Vocabulary of the properties *)

Module BufferSpec.
Section Spec.
Context {F : Float32}.
Import FloatArrayWrapper.

Implicit Types (b : t) (l : list f32).

(** Every chunk has the 4096 elements it was created with. *)
Definition well_chunked b : Prop :=
  Forall (λ c, length c = 4096%nat) (dataList b).

(** [b] stores the samples [l], followed by [pad] untouched zeros. *)
Definition stores b l (pad : nat) : Prop :=
  well_chunked b ∧
  currentElementCount b = Z.of_nat (length l) ∧
  mjoin (dataList b) = l ++ replicate pad f32_zero.

(** The same, with no chunk more than the samples need. *)
Definition holds b l : Prop := ∃ pad, (pad < 4096)%nat ∧ stores b l pad.

(** The values a call [push(floatArray, n)] reads from its argument. *)
Definition pushed (floatArray : list f32) (n : Z) : list f32 :=
  TypedArray.get_or_nan floatArray <$> seqZ 0 n.

(** The tail capacity [push] computes: what is left of the last chunk,
    counted as zero when the count is a multiple of the chunk size. *)
Definition tailCapacity b : Z :=
  if Z.rem (currentElementCount b) 4096 =? 0 then 0
  else 4096 - Z.rem (currentElementCount b) 4096.

(** The unused tail capacity of the last chunk, read off the chunk list:
    the elements of the chunks that lie beyond the count. *)
Definition unusedTail b : Z :=
  4096 * Z.of_nat (length (dataList b)) - currentElementCount b.

(** A run of [push] calls, each with its array and its count. *)
Definition push_all (calls : list (list f32 * nat)) (b : t) : t :=
  foldl (λ b call, push b call.1 (Z.of_nat call.2)) b calls.

(** The samples of a run of calls, in the order they were pushed. *)
Definition stream (calls : list (list f32 * nat)) : list f32 :=
  calls ≫= (λ call, pushed call.1 (Z.of_nat call.2)).

Definition total (calls : list (list f32 * nat)) : nat :=
  sum_list (snd <$> calls).

End Spec.
End BufferSpec.

Module EngineSpec.
Section Spec.
Context {F : Float32}.
Import AudioController.

(** The phase after [k] samples: [k] additions of [rate], one after the
    other. *)
Definition phase_after (rate phase : float) (k : nat) : float :=
  Nat.iter k (λ p, (p + rate)%float) phase.

(** What is stored for sample [i] of a frame that starts at [phase]: the
    buffer is read at the rounded phase after [i + 1] additions, the value
    is scaled by [volume] and rounded to single precision by the store. *)
Definition sample_at (data : FloatArrayWrapper.t) (rate volume phase : float)
    (i : nat) : f32 :=
  fround (f32_to_number
            (getElementAt data (Num.Math_round (phase_after rate phase (S i))))
          * volume)%float.

(** The loop test of [play]: the phase is reset when it has reached the
    size of the buffer or the rate is zero. *)
Definition wraps (data : FloatArrayWrapper.t) (rate phase : float) : bool :=
  Num.geb phase (Num.of_Z (FloatArrayWrapper.getSize data))
  || (rate =? 0)%float.

End Spec.
End EngineSpec.

Module NumSpec.

(** The rational number a binary64 value stands for: [±m * 2^e] for a finite
    number, 0 for a zero.  (NaN and the infinities stand for no number; they
    are given 0 and excluded by [is_finite] where it matters.) *)
Definition SF2Q (x : spec_float) : Q :=
  match x with
  | S754_finite s m e => (inject_Z (cond_Zopp s (Z.pos m)) * 2 ^ e)%Q
  | _ => 0%Q
  end.

Definition value (x : float) : Q := SF2Q (Prim2SF x).

(** The relative rounding error of an operation is at most [eps]; the
    absolute error of a product below the normal range is at most [eta]. *)
Definition eps : Q := (2 ^ (-53))%Q.

Definition eta : Q := (2 ^ (-1075))%Q.

(** A zero or a finite number. *)
Definition sf_finite (x : spec_float) : bool :=
  match x with
  | S754_zero _ | S754_finite _ _ _ => true
  | _ => false
  end.

(** The float with sign [s], the integer mantissa [z >= 0] and the exponent
    [e], an infinity when [e] is beyond the range. *)
Definition of_mantissa (s : bool) (z e : Z) : spec_float :=
  match z with
  | 0 => S754_zero s
  | Z.pos p =>
      if e <=? emax - prec then S754_finite s p e else S754_infinity s
  | Z.neg _ => S754_nan
  end.

(** What [k] right shifts of the mantissa [m] have kept: the quotient, the
    last bit shifted out and whether anything below it was set. *)
Definition shifted (m : Z) (k : Z) (mrs : shr_record) : Prop :=
  0 ≤ shr_m mrs ∧
  (shr_r mrs = true → 0 < k) ∧
  ∃ t, m = 2 ^ k * shr_m mrs + (if shr_r mrs then 2 ^ (k - 1) else 0) + t ∧
       0 ≤ t ∧ (t = 0 ∨ t < 2 ^ (k - 1)) ∧
       (shr_s mrs = false ↔ t = 0).

End NumSpec.

Module RateSpec.
Import AccelerationToRate.

(** The motion magnitude a tick reads: velocity or acceleration, as the
    controller is configured. *)
Definition motionMagnitude (s : t) (calc : motion) : float :=
  if useVelocity s then velocityMagnitude calc else accelerationMagnitude calc.

(** The target rate for a motion magnitude [m]: the Idle value below the
    threshold, the Active value otherwise. *)
Definition nextTargetRate (s : t) (m : float) : float :=
  if (m <? motionThreshold s)%float then baseRate s
  else calculateTargetRate s m.

(** [lo <= r] and [r <= hi], as the comparisons on numbers decide it. *)
Definition within (lo hi r : float) : bool :=
  (lo <=? r)%float && (r <=? hi)%float.

(** What the rounding of the three operations of a smoothing step can add
    to its exact result, for the rates [c] and [t]. *)
Definition tolerance (c t : float) : Q :=
  (2 ^ (-50) * Qmax (Qabs (NumSpec.value c)) (Qabs (NumSpec.value t))
   + 2 ^ (-1073))%Q.

End RateSpec.

Module LoadSpec.
Section Spec.
Context {F : Float32}.
Import AudioController.

(** The samples [loadTracks] pushes for a source: those of every answer
    before the first one with [x = 0]. *)
Fixpoint delivered (source : list pull) : list f32 :=
  match source with
  | [] => []
  | p :: source' =>
      if pulled_x p =? 0 then []
      else BufferSpec.pushed (pulled p) (pulled_x p) ++ delivered source'
  end.

(** The frame of the track can be allocated: its [maxFrameSize] is not
    negative and the host allocates that length. *)
Definition loadable (fits : Z → bool) (tr : track) : Prop :=
  0 ≤ maxFrameSize tr ∧ fits (maxFrameSize tr) = true.

(** Sample [index] of a stream of samples, silence outside it. *)
Definition stream_read (l : list f32) (index : option Z) : f32 :=
  match index with
  | Some k => if k <? 0 then f32_zero else default f32_zero (l !! Z.to_nat k)
  | None => f32_zero
  end.

(** [data] is the buffer of the track [tr]: it holds the samples delivered
    by the source of [tr], and reads as silence outside them. *)
Definition buffer_of (tr : track) (data : FloatArrayWrapper.t) : Prop :=
  FloatArrayWrapper.getSize data = Z.of_nat (length (delivered (pulls tr))) ∧
  ∀ i, FloatArrayWrapper.getElement data i
       = stream_read (delivered (pulls tr)) (Some i).

End Spec.
End LoadSpec.

Module RunSpec.
Import AccelerationToRate.

(** A run of [updateRate] ticks, one per reading of the motion source. *)
Definition run {F : Float32} (motions : list motion)
    (st : t * AudioController.t) : t * AudioController.t :=
  foldl (λ st calc, updateRate calc st.1 st.2) st motions.

(** Two controllers with the same configuration. *)
Definition same_config (s s' : t) : Prop :=
  baseRate s' = baseRate s ∧ useVelocity s' = useVelocity s ∧
  sensitivity s' = sensitivity s ∧ minRate s' = minRate s ∧
  maxRate s' = maxRate s ∧ smoothing s' = smoothing s ∧
  motionThreshold s' = motionThreshold s.

(** Two engines that differ at most in [rate]. *)
Definition same_playback {F : Float32} (a a' : AudioController.t) : Prop :=
  AudioController.volume a' = AudioController.volume a ∧
  AudioController.audioData a' = AudioController.audioData a ∧
  AudioController.resultFrame a' = AudioController.resultFrame a ∧
  AudioController.phase a' = AudioController.phase a ∧
  AudioController.trackOnDeck a' = AudioController.trackOnDeck a.

End RunSpec.

(** ** Concrete inputs *)

Module Examples.

Local Existing Instance Float32_binary64.

(** Two calls that cross a chunk boundary: 3 samples, then 4094. *)
Definition two_calls : list (list float * nat) :=
  [([1; 2; 3]%float, 3%nat); (replicate 4096 7%float, 4094%nat)].

(** A buffer with the samples 10, 20, 30 and an engine playing it backwards
    from phase 1.5 into a frame of four slots. *)
Definition three_samples : FloatArrayWrapper.t :=
  FloatArrayWrapper.push FloatArrayWrapper.new [10; 20; 30]%float 3.

Definition reverse_engine : AudioController.t :=
  {| AudioController.rate := (-1.0)%float; AudioController.volume := 0.5%float;
     AudioController.audioData := Some three_samples;
     AudioController.resultFrame := Some (TypedArray.make 4);
     AudioController.phase := 1.5%float;
     AudioController.trackOnDeck := true |}.

(** An engine with nothing loaded. *)
Definition idle_engine : AudioController.t :=
  {| AudioController.rate := 1.0; AudioController.volume := 1.0;
     AudioController.audioData := None; AudioController.resultFrame := None;
     AudioController.phase := 0.0; AudioController.trackOnDeck := false |}.

(** The default controller with smoothing switched off (the fields are, in
    order: baseRate, useVelocity, sensitivity, minRate, maxRate, smoothing,
    motionThreshold, currentRate, targetRate). *)
Definition instant : AccelerationToRate.t :=
  AccelerationToRate.mk 1.0 true 2.0 0.3 3.0 0 0.05 1.0 1.0.

(** A controller at rest at rate 1 whose base rate is the float just below 1,
    with light smoothing. *)
Definition settling : AccelerationToRate.t :=
  AccelerationToRate.mk 0x1.fffffffffffffp-1 true 2.0 0.3 3.0 0.3 0.05 1.0 1.0.

End Examples.

(** A binary64 [vec3] for running the calculator. *)
Definition Vec3_binary64 : Vec3 :=
  {| vec3 := float * float * float;
     vec3_new := λ x y z, (x, y, z);
     vec3_x := λ v, v.1.1; vec3_y := λ v, v.1.2; vec3_z := λ v, v.2;
     vec3_zero := (0, 0, 0)%float;
     vec3_sub := λ v w, (v.1.1 - w.1.1, v.1.2 - w.1.2, v.2 - w.2)%float;
     vec3_uniformScale := λ v k, (v.1.1 * k, v.1.2 * k, v.2 * k)%float;
     vec3_length := λ v,
       sqrt (v.1.1 * v.1.1 + v.1.2 * v.1.2 + v.2 * v.2)%float |}.

Module Scenarios.

Local Existing Instance Float32_binary64.
Local Existing Instance Vec3_binary64.
Import Examples.

(** A source that delivers four samples, then two, then ends; the answer
    after the end is never asked for. *)
Definition short_track : AudioController.track :=
  AudioController.Track 4
    [AudioController.Pull [1; 2; 3; 4]%float 4;
     AudioController.Pull [5; 6; 3; 4]%float 2;
     AudioController.Pull [5; 6; 3; 4]%float 0;
     AudioController.Pull [8; 6; 3; 4]%float 1].

(** A host that allocates arrays of less than [2^32] elements. *)
Definition host_fits (n : Z) : bool := n <? 2 ^ 32.

(** A track whose source reports a negative [maxFrameSize]. *)
Definition broken_track : AudioController.track :=
  AudioController.Track (-1) [AudioController.Pull [1; 2]%float 2].

(** The engine as its field initialisers leave it. *)
Definition fresh_engine : AudioController.t :=
  AudioController.mk 1.0 1.0 None None 0.0 false.

(** An engine on deck over [three_samples], at phase 0.6 with rate 0. *)
Definition frozen_engine : AudioController.t :=
  AudioController.mk 0 2.0 (Some three_samples) (Some (TypedArray.make 4))
    0.6 true.

(** An engine on deck over the 4097 samples of [two_calls], at phase 0. *)
Definition forward_engine : AudioController.t :=
  AudioController.mk 1.0 1.0
    (Some (BufferSpec.push_all two_calls FloatArrayWrapper.new))
    (Some (TypedArray.make 4)) 0.0 true.

(** The default controller after its rate has become NaN. *)
Definition poisoned : AccelerationToRate.t :=
  AccelerationToRate.mk 1.0 true 2.0 0.3 3.0 0.7 0.05 nan 1.0.

(** A calculator that last ran at time 2 with its target at the origin. *)
Definition calculator : AccelerationCalculator.t :=
  AccelerationCalculator.mk true 0.7 0.01 (Some (0, 0, 0)%float)
    (0, 0, 0)%float (0, 0, 0)%float (0, 0, 0)%float (0, 0, 0)%float 2.0.

End Scenarios.

(** * Properties *)

Ltac zdiv := Z.quot_rem_to_equations; Z.div_mod_to_equations; lia.

(** ** Lists of chunks of one length *)

Section Chunks.
Context {A : Type}.
Implicit Types (ls : list (list A)) (c : list A).

Lemma join_insert_same_length (n : nat) ls k c j (v : A) :
  Forall (λ c, length c = n) ls →
  ls !! k = Some c → (j < n)%nat →
  mjoin (<[k := <[j := v]> c]> ls) = <[(k * n + j)%nat := v]> (mjoin ls).
Proof.
  intros Hlen. revert k. induction Hlen as [|c0 ls Hc0 Hls IH]; intros k Hk Hj.
  - by rewrite lookup_nil in Hk.
  - destruct k as [|k]; simpl in *.
    + injection Hk as ->. by rewrite insert_app_l by lia.
    + rewrite (IH k Hk Hj). rewrite insert_app_r_alt by lia.
      do 2 f_equal. lia.
Qed.

Lemma join_replicate_chunks (a n : nat) (z : A) ls :
  mjoin (ls ++ replicate a (replicate n z)) = mjoin ls ++ replicate (a * n) z.
Proof.
  rewrite join_app. f_equal. induction a as [|a IH]; simpl; [done|].
  by rewrite IH, replicate_add.
Qed.

Lemma join_lookup_chunk (n : nat) ls k j :
  Forall (λ c, length c = n) ls → (j < n)%nat →
  mjoin ls !! (k * n + j)%nat = ls !! k ≫= (.!! j).
Proof.
  intros Hlen Hj.
  destruct (mjoin ls !! (k * n + j)%nat) as [x|] eqn:E.
  - apply join_lookup_Some_same_length' in E as (c & -> & Hc); done.
  - destruct (ls !! k) as [c|] eqn:Ek; simpl; [|done].
    destruct (c !! j) as [x|] eqn:Ec; [|done].
    assert (mjoin ls !! (k * n + j)%nat = Some x) as E'; [|congruence].
    apply join_lookup_Some_same_length'; eauto.
Qed.

End Chunks.

(** ** The buffer *)

Module BufferFacts.
Section Facts.
Context {F : Float32}.
Import FloatArrayWrapper BufferSpec.

Implicit Types (b : t) (l : list f32).

Lemma createAdditionalInnerArrays_eq b m :
  createAdditionalInnerArrays b m =
    {| dataList := dataList b ++ replicate (Z.to_nat m) (TypedArray.make innerArraySize);
       currentElementCount := currentElementCount b |}.
Proof.
  unfold createAdditionalInnerArrays. generalize 0.
  revert b. induction (Z.to_nat m) as [|n IH]; intros b i; simpl.
  - rewrite app_nil_r. by destruct b.
  - rewrite IH. simpl. by rewrite <- app_assoc.
Qed.

Lemma stores_capacity b l pad :
  stores b l pad → (length (dataList b) * 4096 = length l + pad)%nat.
Proof.
  intros (Hwc & _ & Hj). apply (f_equal length) in Hj.
  rewrite length_join, length_app, length_replicate in Hj.
  rewrite (sum_list_fmap_same 4096) in Hj by done. lia.
Qed.

Lemma push_copy_stores floatArray c b l pad :
  stores b l (S pad) →
  stores (push_copy floatArray c b) (l ++ [TypedArray.get_or_nan floatArray c]) pad ∧
  length (dataList (push_copy floatArray c b)) = length (dataList b).
Proof.
  intros Hs. pose proof (stores_capacity _ _ _ Hs) as Hcap.
  destruct Hs as (Hwc & Hcount & Hj).
  unfold push_copy, array_get, innerArraySize. rewrite Hcount.
  set (N := Z.of_nat (length l)).
  assert (0 ≤ N / 4096) by (subst N; zdiv).
  assert (Z.to_nat (N / 4096) < length (dataList b))%nat as Hk by (subst N; zdiv).
  apply lookup_lt_is_Some_2 in Hk as [chunk Hchunk].
  destruct (Z.ltb_spec (N / 4096) 0) as [|_]; [lia|]. rewrite Hchunk.
  assert (length chunk = 4096%nat) as Hlen
    by (eapply (Forall_lookup_1 _ _ _ _ Hwc Hchunk)).
  unfold TypedArray.set.
  destruct (Z.ltb_spec (Z.rem N 4096) 0) as [|_]; [subst N; zdiv|].
  split; [|simpl; by rewrite length_insert].
  split; [|split]; simpl.
  - apply Forall_insert; [done|]. by rewrite length_insert.
  - rewrite length_app. simpl. lia.
  - rewrite (join_insert_same_length 4096) by (done || subst N; zdiv).
    rewrite Hj.
    replace (Z.to_nat (N / 4096) * 4096 + Z.to_nat (Z.rem N 4096))%nat
      with (length l + 0)%nat by (subst N; zdiv).
    rewrite insert_app_r. simpl. by rewrite <- app_assoc.
Qed.

Lemma copy_loop_stores floatArray n : ∀ c b l pad,
  stores b l (n + pad) →
  stores (for_loop n c (push_copy floatArray) b)
         (l ++ (TypedArray.get_or_nan floatArray <$> seqZ c (Z.of_nat n))) pad ∧
  length (dataList (for_loop n c (push_copy floatArray) b)) = length (dataList b).
Proof.
  induction n as [|n IH]; intros c b l pad Hs.
  - simpl. by rewrite app_nil_r.
  - rewrite seqZ_cons by lia. simpl.
    destruct (push_copy_stores floatArray c b l (n + pad) Hs) as [Hs1 Hlen1].
    destruct (IH (c + 1) _ _ _ Hs1) as [Hs2 Hlen2].
    rewrite <- app_assoc in Hs2. simpl in Hs2.
    replace (Z.pred (Z.of_nat (S n))) with (Z.of_nat n) by lia.
    split; [done | congruence].
Qed.

Lemma tailCapacity_stores b l pad :
  stores b l pad → (pad < 4096)%nat → tailCapacity b = Z.of_nat pad.
Proof.
  intros Hs Hpad. pose proof (stores_capacity _ _ _ Hs) as Hcap.
  destruct Hs as (_ & Hcount & _). unfold tailCapacity. rewrite Hcount.
  destruct (Z.eqb_spec (Z.rem (Z.of_nat (length l)) 4096) 0); zdiv.
Qed.

Lemma push_holds b l floatArray (n : nat) :
  holds b l →
  holds (push b floatArray (Z.of_nat n)) (l ++ pushed floatArray (Z.of_nat n)).
Proof.
  intros (pad & Hpad & Hs).
  pose proof (tailCapacity_stores _ _ _ Hs Hpad) as Htail.
  unfold tailCapacity in Htail. unfold push, innerArraySize. cbv zeta.
  rewrite Htail, Nat2Z.id, createAdditionalInnerArrays_eq.
  unfold ceil_div, innerArraySize.
  set (added := Z.to_nat (- (- (Z.of_nat n - Z.of_nat pad) / 4096))).
  assert (n ≤ pad + added * 4096)%nat as Hroom by (subst added; zdiv).
  exists (pad + added * 4096 - n)%nat. split; [subst added; zdiv|].
  apply copy_loop_stores.
  replace (n + (pad + added * 4096 - n))%nat with (pad + added * 4096)%nat by lia.
  destruct Hs as (Hwc & Hcount & Hj). split; [|split]; simpl.
  - apply Forall_app. split; [done|].
    apply Forall_replicate. unfold TypedArray.make. by rewrite length_replicate.
  - done.
  - unfold TypedArray.make.
    rewrite join_replicate_chunks, Hj, <- app_assoc, <- replicate_add.
    do 2 f_equal.
Qed.

Lemma push_copy_chunks floatArray c b :
  length (dataList (push_copy floatArray c b)) = length (dataList b).
Proof.
  unfold push_copy. simpl.
  destruct (array_get _ _); [by rewrite length_insert | done].
Qed.

Lemma copy_loop_chunks floatArray n : ∀ c b,
  length (dataList (for_loop n c (push_copy floatArray) b)) = length (dataList b).
Proof.
  induction n as [|n IH]; intros c b; simpl; [done|].
  by rewrite IH, push_copy_chunks.
Qed.

(** [Math.ceil] of a quotient is the least integer not below it. *)
Lemma ceil_div_spec a k : ceil_div a 4096 ≤ k ↔ a ≤ 4096 * k.
Proof. unfold ceil_div. zdiv. Qed.

Lemma getElement_flat b i :
  well_chunked b → 0 ≤ i →
  getElement b i = default f32_zero (mjoin (dataList b) !! Z.to_nat i).
Proof.
  intros Hwc Hi. unfold getElement, array_get, innerArraySize.
  destruct (Z.ltb_spec (i / 4096) 0) as [|_]; [zdiv|].
  replace (Z.to_nat i)
    with (Z.to_nat (i / 4096) * 4096 + Z.to_nat (Z.rem i 4096))%nat by zdiv.
  rewrite (join_lookup_chunk 4096) by (done || zdiv).
  destruct (dataList b !! Z.to_nat (i / 4096)) as [chunk|] eqn:Hchunk; [|done].
  simpl. unfold TypedArray.get_or_nan, TypedArray.get.
  destruct (Z.ltb_spec (Z.rem i 4096) 0) as [|_]; [zdiv|].
  assert (length chunk = 4096%nat) as Hlen
    by (eapply (Forall_lookup_1 _ _ _ _ Hwc Hchunk)).
  destruct (lookup_lt_is_Some_2 chunk (Z.to_nat (Z.rem i 4096))) as [x ->];
    [zdiv | done].
Qed.

Lemma getElement_stores b l pad i :
  stores b l pad → 0 ≤ i →
  getElement b i = default f32_zero (l !! Z.to_nat i).
Proof.
  intros (Hwc & _ & Hj) Hi. rewrite getElement_flat, Hj by done.
  destruct (decide (Z.to_nat i < length l)%nat) as [Hlt|Hge].
  - by rewrite lookup_app_l.
  - rewrite lookup_app_r, (lookup_ge_None_2 l) by lia. simpl.
    destruct (replicate pad f32_zero !! _) as [x|] eqn:E; [|done].
    by apply lookup_replicate in E as [-> _].
Qed.

Lemma length_pushed floatArray (n : nat) :
  length (pushed floatArray (Z.of_nat n)) = n.
Proof. unfold pushed. rewrite length_fmap, length_seqZ. lia. Qed.

(** A count within the array reads its first samples and nothing else. *)
Lemma pushed_take floatArray (n : nat) :
  (n ≤ length floatArray)%nat →
  pushed floatArray (Z.of_nat n) = take n floatArray.
Proof.
  intros Hn. apply list_eq. intros i. unfold pushed.
  rewrite list_lookup_fmap.
  destruct (decide (i < n)%nat) as [Hi|Hi].
  - rewrite lookup_seqZ_lt, lookup_take_lt by lia. simpl.
    unfold TypedArray.get_or_nan, TypedArray.get.
    destruct (Z.ltb_spec (0 + Z.of_nat i) 0) as [|_]; [lia|].
    replace (Z.to_nat (0 + Z.of_nat i)) with i by lia.
    destruct (lookup_lt_is_Some_2 floatArray i) as [x ->]; [lia|done].
  - by rewrite lookup_seqZ_ge, lookup_take_ge by lia.
Qed.

Lemma stream_take calls :
  Forall (λ call, (call.2 ≤ length call.1)%nat) calls →
  stream calls = calls ≫= (λ call, take call.2 call.1).
Proof.
  unfold stream. induction 1 as [|[a n] calls Hn _ IH]; [done|].
  csimpl in *. by rewrite IH, pushed_take.
Qed.

(** In a well-chunked buffer sample [i] sits at [chunks[i / 4096][i % 4096]]. *)
Lemma stores_position b l pad (i : nat) x :
  stores b l pad → l !! i = Some x →
  ∃ chunk, dataList b !! (i / 4096)%nat = Some chunk ∧
           chunk !! (i mod 4096)%nat = Some x.
Proof.
  intros (Hwc & _ & Hj) Hx.
  assert (mjoin (dataList b) !! ((i / 4096) * 4096 + i mod 4096)%nat = Some x) as E.
  { rewrite Hj. replace ((i / 4096) * 4096 + i mod 4096)%nat with i.
    - by apply lookup_app_l_Some.
    - pose proof (Nat.div_mod_eq i 4096). lia. }
  apply join_lookup_Some_same_length' in E; [done..|].
  apply Nat.mod_upper_bound. lia.
Qed.

Lemma length_stream calls : length (stream calls) = total calls.
Proof.
  unfold stream, total. induction calls as [|[a n] calls IH]; [done|].
  csimpl. by rewrite length_app, length_pushed, IH.
Qed.

Lemma push_all_holds calls : ∀ b l,
  holds b l → holds (push_all calls b) (l ++ stream calls).
Proof.
  induction calls as [|[a n] calls IH]; intros b l Hb.
  - simpl. by rewrite app_nil_r.
  - unfold stream. csimpl. rewrite app_assoc. apply IH. by apply push_holds.
Qed.

Lemma new_holds : holds new [].
Proof.
  exists 0%nat. split; [lia|]. split; [constructor|]. split; reflexivity.
Qed.

Lemma pushes_hold calls : holds (push_all calls new) (stream calls).
Proof. apply (push_all_holds calls new []), new_holds. Qed.

(** C1.  After any run of [push] calls on a fresh buffer, with no [clear]
    or [shift] in between, [getSize] is the sum [N] of the counts, and for
    every [i] in [0, N) [getElement i] is the sample at position [i] of the
    pushed samples taken in order, which sits at
    [chunks[i / 4096][i % 4096]].  The pushed samples of a call are the first
    [count] elements of its array when [count] is within the array.  This
    holds for every [N]: zero, multiples of the chunk size 4096, and values
    just above one. *)
Theorem push_then_getElement calls :
  let b := push_all calls new in
  getSize b = Z.of_nat (total calls) ∧
  length (stream calls) = total calls ∧
  (Forall (λ call, (call.2 ≤ length call.1)%nat) calls →
     stream calls = calls ≫= (λ call, take call.2 call.1)) ∧
  ∀ i : nat, (i < total calls)%nat →
    stream calls !! i = Some (getElement b (Z.of_nat i)) ∧
    ∃ chunk, dataList b !! (i / 4096)%nat = Some chunk ∧
             chunk !! (i mod 4096)%nat = Some (getElement b (Z.of_nat i)).
Proof.
  intros b. subst b. unfold getSize.
  destruct (pushes_hold calls) as (pad & _ & Hs).
  split; [|split; [|split]].
  - destruct Hs as (_ & -> & _). by rewrite length_stream.
  - apply length_stream.
  - apply stream_take.
  - intros i Hi. rewrite (getElement_stores _ _ _ _ Hs) by lia.
    rewrite Nat2Z.id.
    destruct (lookup_lt_is_Some_2 (stream calls) i) as [x Hx];
      [by rewrite length_stream|].
    rewrite Hx. simpl. split; [done|].
    by apply (stores_position _ _ _ _ _ Hs).
Qed.

(** C3.  After pushes of [N] samples in all, [getElement i] is 0 for every
    index [i >= N], however far beyond the allocated chunks; being a total
    function it never fails. *)
Theorem getElement_past_end calls i :
  Z.of_nat (total calls) ≤ i →
  getElement (push_all calls new) i = f32_zero.
Proof.
  intros Hi. destruct (pushes_hold calls) as (pad & _ & Hs).
  rewrite (getElement_stores _ _ _ _ Hs) by lia.
  rewrite lookup_ge_None_2; [done|]. rewrite length_stream. lia.
Qed.

(** What [push] allocates in any state, in terms of the tail capacity it
    computes from the count. *)
Lemma push_growth_by_count b floatArray count :
  Z.of_nat (length (dataList (push b floatArray count)))
  = Z.of_nat (length (dataList b))
    + Z.max 0 (ceil_div (count - tailCapacity b) 4096).
Proof.
  unfold push. rewrite copy_loop_chunks, createAdditionalInnerArrays_eq.
  simpl. rewrite length_app, length_replicate.
  unfold tailCapacity, innerArraySize. lia.
Qed.

(** In a buffer that holds its samples, the tail capacity [push] computes
    from the count is the unused room of the last chunk. *)
Lemma tailCapacity_unusedTail b l :
  holds b l → tailCapacity b = unusedTail b ∧ 0 ≤ unusedTail b < 4096.
Proof.
  intros (pad & Hpad & Hs).
  pose proof (stores_capacity _ _ _ Hs) as Hcap.
  destruct Hs as (_ & Hcount & _).
  unfold tailCapacity, unusedTail. rewrite Hcount.
  destruct (Z.eqb_spec (Z.rem (Z.of_nat (length l)) 4096) 0); zdiv.
Qed.

(** C4, for buffers built by [push] calls.  The unused tail capacity of the
    last chunk is read off the chunk list: it is the number of elements of
    the chunks beyond the count, between 0 and 4095.  A call
    [push(samples, count)] grows the chunk list by exactly
    [ceil(needed / 4096)] chunks, never by a negative number, where
    [needed] is [count] minus that tail capacity and the ceiling is the
    least integer not below the quotient; for a count that is not negative
    the ceiling is itself not negative.  When the count before the push is a
    multiple of 4096 the tail capacity is zero and there is no chunk at
    index [count / 4096], so a push of at least one sample allocates at
    least one fresh chunk, all zeros before the copy. *)
Theorem push_chunk_growth calls floatArray count :
  let b := push_all calls new in
  let needed := count - unusedTail b in
  let grown := ceil_div needed 4096 in
  0 ≤ unusedTail b < 4096 ∧
  Z.of_nat (length (dataList (push b floatArray count)))
    = Z.of_nat (length (dataList b)) + Z.max 0 grown ∧
  (∀ k, grown ≤ k ↔ needed ≤ 4096 * k) ∧
  (0 ≤ count →
     0 ≤ grown ∧
     Z.of_nat (length (dataList (push b floatArray count)))
       = Z.of_nat (length (dataList b)) + grown) ∧
  (Z.rem (getSize b) 4096 = 0 →
     unusedTail b = 0 ∧
     array_get (dataList b) (getSize b / 4096) = None ∧
     (0 < count →
        1 ≤ grown ∧
        dataList (createAdditionalInnerArrays b grown)
          = dataList b
            ++ replicate (Z.to_nat grown) (replicate 4096 f32_zero))).
Proof.
  intros b needed grown.
  pose proof (pushes_hold calls) as Hh. fold b in Hh.
  destruct (tailCapacity_unusedTail _ _ Hh) as [Htail Hrange].
  pose proof (push_growth_by_count b floatArray count) as Hgrow.
  rewrite Htail in Hgrow. fold needed grown in Hgrow.
  split; [done|]. split; [done|]. split; [|split].
  - intros k. apply ceil_div_spec.
  - intros Hcount.
    assert (0 ≤ grown) by (subst grown needed; unfold ceil_div; zdiv).
    split; [done|]. rewrite Hgrow. lia.
  - intros Hrem.
    assert (unusedTail b = 0) as Hzero.
    { revert Hrem Hrange. unfold unusedTail, getSize. zdiv. }
    split; [done|]. split.
    + unfold array_get.
      destruct (Z.ltb_spec (getSize b / 4096) 0); [done|].
      apply lookup_ge_None_2. revert Hzero. unfold unusedTail, getSize. zdiv.
    + intros Hcount. split.
      * subst grown needed. rewrite Hzero. unfold ceil_div. zdiv.
      * by rewrite createAdditionalInnerArrays_eq.
Qed.

(** C7.  [shift] removes and returns the first (oldest) chunk when there
    is one and returns [undefined] when there is none; in both cases
    [getSize] is what it was before the call. *)
Theorem shift_keeps_size b :
  (∀ chunk rest, dataList b = chunk :: rest →
     (shift b).1 = Some chunk ∧ dataList (shift b).2 = rest) ∧
  (dataList b = [] → (shift b).1 = None ∧ dataList (shift b).2 = []) ∧
  getSize (shift b).2 = getSize b.
Proof.
  unfold shift, getSize. destruct (dataList b) as [|c r] eqn:E; simpl.
  - repeat split; done.
  - repeat split; congruence.
Qed.

End Facts.

Local Existing Instance Float32_binary64.
Import Examples.

Lemma push_then_getElement_witness :
  (4096 < BufferSpec.total two_calls)%nat ∧
  BufferSpec.stream two_calls !! 4096%nat
    = Some (FloatArrayWrapper.getElement
              (BufferSpec.push_all two_calls FloatArrayWrapper.new) 4096).
Proof.
  assert (4096 < BufferSpec.total two_calls)%nat as H by (vm_compute; lia).
  split; [exact H|].
  exact (proj1 (proj2 (proj2 (proj2 (push_then_getElement two_calls))) 4096%nat H)).
Defined.

Lemma getElement_past_end_witness :
  Z.of_nat (BufferSpec.total two_calls) ≤ 4097 ∧
  FloatArrayWrapper.getElement
    (BufferSpec.push_all two_calls FloatArrayWrapper.new) 4097 = 0%float.
Proof.
  assert (Z.of_nat (BufferSpec.total two_calls) ≤ 4097) as H by (vm_compute; discriminate).
  split; [exact H|]. exact (getElement_past_end two_calls 4097 H).
Defined.

Lemma shift_keeps_size_witness :
  FloatArrayWrapper.dataList three_samples
    = [[10; 20; 30]%float ++ replicate 4093 0%float] ∧
  (FloatArrayWrapper.shift three_samples).1
    = Some ([10; 20; 30]%float ++ replicate 4093 0%float) ∧
  FloatArrayWrapper.dataList (FloatArrayWrapper.shift three_samples).2 = [] ∧
  FloatArrayWrapper.getSize (FloatArrayWrapper.shift three_samples).2 = 3.
Proof.
  assert (FloatArrayWrapper.dataList three_samples
            = [[10; 20; 30]%float ++ replicate 4093 0%float]) as H
    by (vm_compute; reflexivity).
  destruct (shift_keeps_size three_samples) as (Hsome & _ & Hsize).
  destruct (Hsome _ _ H) as [Hhd Htl].
  split; [exact H|]. split; [exact Hhd|]. split; [exact Htl | exact Hsize].
Defined.

Lemma push_chunk_growth_witness :
  (Z.rem (FloatArrayWrapper.getSize
            (BufferSpec.push_all [] FloatArrayWrapper.new)) 4096 = 0 ∧
   0 < 4097 ∧
   Z.of_nat (length (FloatArrayWrapper.dataList
                       (FloatArrayWrapper.push
                          (BufferSpec.push_all [] FloatArrayWrapper.new)
                          [] 4097))) = 2 ∧
   1 ≤ ceil_div
         (4097 - BufferSpec.unusedTail
                   (BufferSpec.push_all [] FloatArrayWrapper.new)) 4096) ∧
  (0 ≤ 4095 ∧
   BufferSpec.unusedTail (BufferSpec.push_all two_calls FloatArrayWrapper.new)
     = 4095 ∧
   Z.of_nat (length (FloatArrayWrapper.dataList
                       (FloatArrayWrapper.push
                          (BufferSpec.push_all two_calls FloatArrayWrapper.new)
                          [] 4095))) = 2).
Proof.
  assert (Z.rem (FloatArrayWrapper.getSize
                   (BufferSpec.push_all [] FloatArrayWrapper.new)) 4096 = 0)
    as H1 by reflexivity.
  assert (0 < 4097) as H2 by lia.
  assert (0 ≤ 4095) as H3 by lia.
  split.
  - destruct (push_chunk_growth [] [] 4097) as (_ & Hlen & _ & _ & Hfresh).
    destruct (Hfresh H1) as (_ & _ & Hone).
    destruct (Hone H2) as (Hge & _).
    split; [exact H1|]. split; [exact H2|]. split; [exact Hlen | exact Hge].
  - destruct (@push_chunk_growth Float32_binary64 two_calls [] 4095) as (_ & _ & _ & Hroom & _).
    destruct (Hroom H3) as (_ & Hlen).
    split; [exact H3|]. split; [vm_compute; reflexivity|].
    refine (eq_trans Hlen _). vm_compute. reflexivity.
Defined.

(** After [shift] the count still says 3 where no chunk is left: [push]
    takes the tail capacity from the count, 4093, and allocates nothing for
    2 samples, although no chunk has room for them; the two samples are not
    stored. *)
Lemma push_after_shift_counterexample :
  FloatArrayWrapper.dataList (FloatArrayWrapper.shift three_samples).2 = [] ∧
  FloatArrayWrapper.getSize (FloatArrayWrapper.shift three_samples).2 = 3 ∧
  BufferSpec.unusedTail (FloatArrayWrapper.shift three_samples).2 = -3 ∧
  ceil_div (2 - 0) 4096 = 1 ∧
  ceil_div (2 - -3) 4096 = 1 ∧
  Z.of_nat (length (FloatArrayWrapper.dataList
                      (FloatArrayWrapper.push
                         (FloatArrayWrapper.shift three_samples).2
                         [4; 5]%float 2)))
    ≠ Z.of_nat (length (FloatArrayWrapper.dataList
                          (FloatArrayWrapper.shift three_samples).2))
      + Z.max 0 (ceil_div (2 - 0) 4096) ∧
  FloatArrayWrapper.dataList
    (FloatArrayWrapper.push (FloatArrayWrapper.shift three_samples).2
       [4; 5]%float 2) = [] ∧
  FloatArrayWrapper.getSize
    (FloatArrayWrapper.push (FloatArrayWrapper.shift three_samples).2
       [4; 5]%float 2) = 5 ∧
  FloatArrayWrapper.getElement
    (FloatArrayWrapper.push (FloatArrayWrapper.shift three_samples).2
       [4; 5]%float 2) 3 = 0%float.
Proof. repeat split; vm_compute; (reflexivity || discriminate). Qed.

End BufferFacts.

(** ** Comparison of numbers *)

Module NumFacts.
Import Num.

Lemma SFcompare_antisym x y : SFcompare y x = CompOpp <$> SFcompare x y.
Proof.
  destruct x as [sx|sx| |sx mx ex], y as [sy|sy| |sy my ey]; simpl;
    try done; try (by destruct sx); try (by destruct sy);
    try (by destruct sx, sy).
  change (Pos.compare_cont Eq my mx) with (my ?= mx)%positive.
  change (Pos.compare_cont Eq mx my) with (mx ?= my)%positive.
  rewrite (Z.compare_antisym ex ey), (Pos.compare_antisym mx my).
  by destruct sx, sy, (ex ?= ey), (mx ?= my)%positive.
Qed.

Lemma SFcompare_None x y :
  SFcompare x y = None ↔ x = S754_nan ∨ y = S754_nan.
Proof.
  destruct x as [sx|sx| |sx mx ex], y as [sy|sy| |sy my ey]; simpl;
    split; intros H; try done; try (by left); try (by right);
    by destruct H.
Qed.

Lemma SFcompare_refl x : x ≠ S754_nan → SFcompare x x = Some Eq.
Proof.
  destruct x as [sx|sx| |sx mx ex]; simpl; intros H; try done.
  - by destruct sx.
  - change (Pos.compare_cont Eq mx mx) with (mx ?= mx)%positive.
    rewrite Z.compare_refl, Pos.compare_refl. by destruct sx.
Qed.

(** Numbers that compare equal compare alike with any third number. *)
Lemma SFcompare_Eq_l x y z :
  SFcompare x y = Some Eq → SFcompare x z = SFcompare y z.
Proof.
  destruct x as [sx|sx| |sx mx ex], y as [sy|sy| |sy my ey]; simpl;
    intros H; try done; try (by destruct sx); try (by destruct sy).
  - by destruct sx, sy.
  - change (Pos.compare_cont Eq mx my) with (mx ?= my)%positive in H.
    assert (sx = sy ∧ ex = ey ∧ mx = my) as (-> & -> & ->); [|done].
    destruct (ex ?= ey) eqn:He, (mx ?= my)%positive eqn:Hm, sx, sy;
      try done;
      apply Z.compare_eq in He as ->; apply Pos.compare_eq in Hm as ->; done.
Qed.

Lemma is_nan_spec a : is_nan a = true ↔ Prim2SF a = S754_nan.
Proof.
  unfold is_nan. rewrite FloatAxioms.eqb_spec. unfold SFeqb. split.
  - intros H. destruct (Prim2SF a) eqn:E; try done;
      rewrite SFcompare_refl in H; done.
  - by intros ->.
Qed.

Lemma is_nan_false a : is_nan a = false ↔ Prim2SF a ≠ S754_nan.
Proof. rewrite <- is_nan_spec. by destruct (is_nan a). Qed.

(** The outcome of comparing two numbers, [None] when one is NaN. *)
Local Abbreviation cmp a b := (SFcompare (Prim2SF a) (Prim2SF b)).

Lemma ltb_cmp a b : (a <? b)%float = true ↔ cmp a b = Some Lt.
Proof. rewrite FloatAxioms.ltb_spec. unfold SFltb. by destruct (cmp a b) as [[]|]. Qed.

Lemma eqb_cmp a b : (a =? b)%float = true ↔ cmp a b = Some Eq.
Proof. rewrite FloatAxioms.eqb_spec. unfold SFeqb. by destruct (cmp a b) as [[]|]. Qed.

Lemma leb_cmp a b :
  (a <=? b)%float = true ↔ cmp a b = Some Lt ∨ cmp a b = Some Eq.
Proof.
  rewrite FloatAxioms.leb_spec. unfold SFleb. destruct (cmp a b) as [[]|]; intuition congruence.
Qed.

Lemma cmp_flip a b : cmp b a = CompOpp <$> cmp a b.
Proof. apply SFcompare_antisym. Qed.

Lemma cmp_numbers a b :
  is_nan a = false → is_nan b = false → is_Some (cmp a b).
Proof.
  rewrite !is_nan_false. intros Ha Hb.
  destruct (cmp a b) eqn:E; [by eexists|].
  apply SFcompare_None in E. tauto.
Qed.

Lemma leb_numbers a b :
  (a <=? b)%float = true → is_nan a = false ∧ is_nan b = false.
Proof.
  rewrite leb_cmp, !is_nan_false. intros H.
  assert (cmp a b ≠ None) as Hn by (destruct H as [H|H]; by rewrite H).
  rewrite SFcompare_None in Hn. tauto.
Qed.

Lemma leb_refl a : is_nan a = false → (a <=? a)%float = true.
Proof.
  rewrite is_nan_false, leb_cmp. intros H. right. by apply SFcompare_refl.
Qed.

(** [a >= b] excludes [a < b]. *)
Lemma leb_not_ltb a b : (b <=? a)%float = true → (a <? b)%float = false.
Proof.
  rewrite leb_cmp. intros H.
  destruct (a <? b)%float eqn:E; [|done].
  apply ltb_cmp in E. rewrite cmp_flip, E in H. simpl in H.
  intuition congruence.
Qed.

Lemma eqb_leb_l a b c :
  (a =? b)%float = true → (a <=? c)%float = (b <=? c)%float.
Proof.
  rewrite eqb_cmp, !FloatAxioms.leb_spec. unfold SFleb. intros H.
  by rewrite (SFcompare_Eq_l _ _ _ H).
Qed.

Lemma eqb_leb_r a b c :
  (a =? b)%float = true → (c <=? a)%float = (c <=? b)%float.
Proof.
  rewrite eqb_cmp, !FloatAxioms.leb_spec. unfold SFleb. intros H.
  rewrite (cmp_flip a c), (cmp_flip b c), (SFcompare_Eq_l _ _ _ H).
  done.
Qed.

Lemma eqb_trans a b c :
  (a =? b)%float = true → (b =? c)%float = true → (a =? c)%float = true.
Proof.
  rewrite !eqb_cmp. intros H1 H2. by rewrite (SFcompare_Eq_l _ _ _ H1).
Qed.

(** [Math.min] of two numbers is one of them and is below both. *)
Lemma Math_min_numbers a b :
  is_nan a = false → is_nan b = false →
  (Math_min a b = a ∨ Math_min a b = b) ∧
  (Math_min a b <=? a)%float = true ∧ (Math_min a b <=? b)%float = true.
Proof.
  intros Ha Hb. unfold Math_min. rewrite Ha, Hb. simpl.
  pose proof (leb_refl a Ha) as Haa. pose proof (leb_refl b Hb) as Hbb.
  destruct (cmp_numbers a b Ha Hb) as [c Hc].
  pose proof (cmp_flip a b) as Hf. rewrite Hc in Hf. simpl in Hf.
  assert ((a <=? b)%float = true ↔ c ≠ Gt) as Hab
    by (rewrite leb_cmp, Hc; destruct c; simpl; intuition congruence).
  assert ((b <=? a)%float = true ↔ c ≠ Lt) as Hba
    by (rewrite leb_cmp, Hf; destruct c; simpl; intuition congruence).
  destruct (a <? b)%float eqn:E1.
  { apply ltb_cmp in E1. rewrite Hc in E1. injection E1 as ->.
    split; [by left|]. split; [done|]. by apply Hab. }
  destruct (b <? a)%float eqn:E2.
  { apply ltb_cmp in E2. rewrite Hf in E2. destruct c; try done.
    split; [by right|]. split; [|done]. by apply Hba. }
  assert (c = Eq) as ->.
  { destruct c; [done| |].
    - assert ((a <? b)%float = true) by (by apply ltb_cmp). congruence.
    - assert ((b <? a)%float = true) by (by apply ltb_cmp). congruence. }
  destruct (get_sign a).
  - split; [by left|]. split; [done|]. by apply Hab.
  - split; [by right|]. split; [|done]. by apply Hba.
Qed.

(** [Math.max] of two numbers is one of them and is above both. *)
Lemma Math_max_numbers a b :
  is_nan a = false → is_nan b = false →
  (Math_max a b = a ∨ Math_max a b = b) ∧
  (a <=? Math_max a b)%float = true ∧ (b <=? Math_max a b)%float = true.
Proof.
  intros Ha Hb. unfold Math_max. rewrite Ha, Hb. simpl.
  pose proof (leb_refl a Ha) as Haa. pose proof (leb_refl b Hb) as Hbb.
  destruct (cmp_numbers a b Ha Hb) as [c Hc].
  pose proof (cmp_flip a b) as Hf. rewrite Hc in Hf. simpl in Hf.
  assert ((a <=? b)%float = true ↔ c ≠ Gt) as Hab
    by (rewrite leb_cmp, Hc; destruct c; simpl; intuition congruence).
  assert ((b <=? a)%float = true ↔ c ≠ Lt) as Hba
    by (rewrite leb_cmp, Hf; destruct c; simpl; intuition congruence).
  destruct (a <? b)%float eqn:E1.
  { apply ltb_cmp in E1. rewrite Hc in E1. injection E1 as ->.
    split; [by right|]. split; [|done]. by apply Hab. }
  destruct (b <? a)%float eqn:E2.
  { apply ltb_cmp in E2. rewrite Hf in E2. destruct c; try done.
    split; [by left|]. split; [done|]. by apply Hba. }
  assert (c = Eq) as ->.
  { destruct c; [done| |].
    - assert ((a <? b)%float = true) by (by apply ltb_cmp). congruence.
    - assert ((b <? a)%float = true) by (by apply ltb_cmp). congruence. }
  destruct (get_sign a).
  - split; [by right|]. split; [|done]. by apply Hab.
  - split; [by left|]. split; [done|]. by apply Hba.
Qed.

End NumFacts.

(** ** Arithmetic with one and zero *)

Module ArithFacts.
Import NumFacts.

Ltac shift52 m :=
  let t := eval cbv [Pos.mul] in (4503599627370496 * m)%positive in
  change (4503599627370496 * m)%positive with t.

Lemma digits2_pos_shift52 m :
  Z.pos (digits2_pos (4503599627370496 * m)) = Z.pos (digits2_pos m) + 52.
Proof. shift52 m. cbn [digits2_pos]. lia. Qed.

Lemma shr_shift52 m e :
  shr (shr_record_of_loc (Z.pos (4503599627370496 * m)) loc_Exact) (-52 + e) 52
  = ({| shr_m := Z.pos m; shr_r := false; shr_s := false |}, e).
Proof. shift52 m. unfold shr. f_equal. lia. Qed.

(** The product of 1 = 2^52 * 2^-52 and a canonical finite float needs no
    rounding. *)
Lemma SFmul_one_finite s m e :
  bounded prec emax m e = true →
  SFmul prec emax (S754_finite false 4503599627370496 (-52)) (S754_finite s m e)
  = S754_finite s m e.
Proof.
  unfold bounded, canonical_mantissa. intros H.
  apply andb_prop in H as [Hc Hb]. apply Z.eqb_eq in Hc.
  unfold SFmul, binary_round_aux, shr_fexp, Zdigits2.
  rewrite digits2_pos_shift52.
  replace (Z.pos (digits2_pos m) + 52 + (-52 + e))
    with (Z.pos (digits2_pos m) + e) by lia.
  rewrite Hc. replace (e - (-52 + e)) with 52 by lia.
  rewrite shr_shift52.
  cbn [shr_m loc_of_shr_record round_nearest_even Zdigits2].
  rewrite Hc, Z.sub_diag.
  cbn [shr shr_record_of_loc shr_m]. by rewrite Hb.
Qed.

Lemma mul_one_l (t : float) : (1 * t)%float = t.
Proof.
  apply Prim2SF_inj. rewrite mul_spec.
  change (Prim2SF 1) with (S754_finite false 4503599627370496 (-52)).
  pose proof (Prim2SF_valid t) as Hv.
  destruct (Prim2SF t) as [s|s| |s m e]; try done.
  by apply SFmul_one_finite.
Qed.

Lemma eqb_zero_spec (a : float) :
  (a =? 0)%float = true → ∃ s, Prim2SF a = S754_zero s.
Proof.
  rewrite eqb_cmp. change (Prim2SF 0) with (S754_zero false).
  destruct (Prim2SF a) as [s|s| |s m e]; simpl; intros H; try done.
  - by exists s.
  - by destruct s.
  - by destruct s.
Qed.

Lemma sub_zero_r (a : float) : (a =? 0)%float = true → (1 - a)%float = 1%float.
Proof.
  intros [s Hs]%eqb_zero_spec. apply Prim2SF_inj.
  by rewrite sub_spec, Hs.
Qed.

Lemma is_finite_spec (c : float) :
  is_finite c = true →
  (∃ s, Prim2SF c = S754_zero s) ∨ (∃ s m e, Prim2SF c = S754_finite s m e).
Proof.
  unfold is_finite, is_infinity. intros H.
  apply negb_true_iff, orb_false_iff in H as [Hn Hi].
  apply is_nan_false in Hn.
  rewrite FloatAxioms.eqb_spec, abs_spec in Hi.
  destruct (Prim2SF c) as [s|s| |s m e]; try done.
  - left. by exists s.
  - right. by exists s, m, e.
Qed.

Lemma zero_mul_finite (a c : float) :
  (a =? 0)%float = true → is_finite c = true →
  ∃ s, Prim2SF (a * c) = S754_zero s.
Proof.
  intros [sa Ha]%eqb_zero_spec Hc. rewrite mul_spec, Ha.
  destruct (is_finite_spec c Hc) as [[s ->]|(s & m & e & ->)]; simpl; eauto.
Qed.

Lemma add_zero_r (t z : float) s :
  Prim2SF z = S754_zero s → is_nan t = false → (t + z =? t)%float = true.
Proof.
  intros Hz Ht%is_nan_false. rewrite eqb_cmp, add_spec, Hz.
  destruct (Prim2SF t) as [st|st| |st m e] eqn:E; try done.
  - simpl. by destruct st, s.
  - by apply SFcompare_refl.
  - by apply SFcompare_refl.
Qed.

End ArithFacts.

(** ** Rounding

    The operations on numbers are those of [SpecFloat]: the exact result is
    rounded to nearest, ties to even.  When the result has not overflowed,
    the error of a sum or a difference is at most [eps] times the exact
    result, and that of a product at most [eps] times the exact result plus
    [eta]; an exact result below [2^1022] in magnitude does not overflow. *)

Module RoundFacts.
Import NumSpec.

Lemma pow2_succ k : 0 ≤ k → 2 ^ (k + 1) = 2 * 2 ^ k.
Proof. intros. rewrite Z.pow_add_r by lia. lia. Qed.

Lemma pow2_pred k : 0 < k → 2 ^ k = 2 * 2 ^ (k - 1).
Proof. intros. rewrite <- pow2_succ by lia. f_equal. lia. Qed.

Lemma pow2_pos k : 0 ≤ k → 0 < 2 ^ k.
Proof. intros. apply Z.pow_pos_nonneg; lia. Qed.

Lemma digits2_pos_bounds m :
  2 ^ (Z.pos (digits2_pos m) - 1) ≤ Z.pos m < 2 ^ Z.pos (digits2_pos m).
Proof.
  induction m as [m IH|m IH|]; cbn [digits2_pos]; [| |simpl; lia].
  - rewrite Pos2Z.inj_succ, Z.pow_succ_r by lia.
    replace (Z.succ (Z.pos (digits2_pos m)) - 1)
      with (Z.succ (Z.pos (digits2_pos m) - 1)) by lia.
    rewrite Z.pow_succ_r by lia. lia.
  - rewrite Pos2Z.inj_succ, Z.pow_succ_r by lia.
    replace (Z.succ (Z.pos (digits2_pos m)) - 1)
      with (Z.succ (Z.pos (digits2_pos m) - 1)) by lia.
    rewrite Z.pow_succ_r by lia. lia.
Qed.

Lemma Zdigits2_le z k : 0 ≤ k → 0 ≤ z < 2 ^ k → 0 ≤ Zdigits2 z ≤ k.
Proof.
  intros Hk [Hz Hlt]. destruct z as [|p|p]; [simpl; lia| |lia].
  simpl. split; [lia|].
  pose proof (digits2_pos_bounds p) as [Hlo _].
  destruct (Z.le_gt_cases (Z.pos (digits2_pos p)) k) as [|Hgt]; [done|].
  assert (2 ^ k ≤ 2 ^ (Z.pos (digits2_pos p) - 1))
    by (apply Z.pow_le_mono_r; lia).
  lia.
Qed.

Lemma Zdigits2_ge z k : 0 ≤ k → 2 ^ k ≤ z → k < Zdigits2 z.
Proof.
  intros Hk Hz. assert (0 < 2 ^ k) by (apply Z.pow_pos_nonneg; lia).
  destruct z as [|p|p]; [lia| |lia]. simpl.
  pose proof (digits2_pos_bounds p) as [_ Hhi].
  destruct (Z.lt_ge_cases k (Z.pos (digits2_pos p))) as [|Hge]; [done|].
  assert (2 ^ Z.pos (digits2_pos p) ≤ 2 ^ k) by (apply Z.pow_le_mono_r; lia).
  lia.
Qed.

Lemma iter_pos_invariant {A} (f : A → A) (P : Z → A → Prop) :
  (∀ k x, 0 ≤ k → P k x → P (k + 1) (f x)) →
  ∀ p k x, 0 ≤ k → P k x → P (k + Z.pos p) (SpecFloat.iter_pos f p x).
Proof.
  intros Hstep. induction p as [p IH|p IH|]; intros k x Hk HP; simpl.
  - replace (k + Z.pos p~1) with (k + 1 + Z.pos p + Z.pos p) by lia.
    apply IH; [lia|]. apply IH; [lia|]. by apply Hstep.
  - replace (k + Z.pos p~0) with (k + Z.pos p + Z.pos p) by lia.
    apply IH; [lia|]. by apply IH.
  - by apply Hstep.
Qed.

Lemma shr_1_shifted m k mrs :
  0 ≤ k → shifted m k mrs → shifted m (k + 1) (shr_1 mrs).
Proof.
  intros Hk (Hm & Hr & t & Heq & Ht & Hlt & Hs).
  destruct mrs as [mk r s]. simpl in *.
  pose proof (pow2_succ k Hk) as Hp.
  pose proof (pow2_pos k Hk).
  assert (r = true → 2 ^ k = 2 * 2 ^ (k - 1)) as Hhalf
    by (intros Hr'; apply pow2_pred; auto).
  assert (0 ≤ 2 ^ (k - 1)) by (apply Z.pow_nonneg; lia).
  assert (2 ^ (k - 1) ≤ 2 ^ k).
  { destruct (Z.eq_dec k 0) as [->|]; [simpl; lia|].
    apply Z.pow_le_mono_r; lia. }
  unfold shifted. replace (k + 1 - 1) with k by lia. rewrite Hp.
  assert (r || s = false ↔ (if r then 2 ^ (k - 1) else 0) + t = 0) as Hs'.
  { destruct r; simpl; [|done]. specialize (Hhalf eq_refl). split; [done|lia]. }
  destruct mk as [|[p|p|]|p]; cbn [shr_1 shr_m shr_r shr_s]; try lia.
  all: split; [lia|]; split; [lia|].
  all: exists ((if r then 2 ^ (k - 1) else 0) + t).
  all: split; [lia|]; split; [destruct r; lia|]; split; [|done].
  all: destruct r; [specialize (Hhalf eq_refl)|]; lia.
Qed.

(** Rounding to nearest, ties to even, after [n > 0] right shifts: the
    result is within half a unit of the shifted mantissa. *)
Lemma round_shifted m n mrs :
  0 < n → shifted m n mrs →
  let z := round_nearest_even (shr_m mrs) (loc_of_shr_record mrs) in
  shr_m mrs ≤ z ≤ shr_m mrs + 1 ∧
  2 ^ n * shr_m mrs ≤ m < 2 ^ n * (shr_m mrs + 1) ∧
  - 2 ^ (n - 1) ≤ 2 ^ n * z - m ≤ 2 ^ (n - 1).
Proof.
  intros Hn (Hm & Hr & t & Heq & Ht & Hlt & Hs) z. subst z.
  pose proof (pow2_pred n Hn) as Hp.
  pose proof (pow2_pos (n - 1) ltac:(lia)).
  destruct mrs as [mk r s]. simpl in *.
  destruct r, s; simpl.
  - assert (t ≠ 0) by (intros ->; by destruct Hs as [_ Hs]; specialize (Hs eq_refl)).
    lia.
  - assert (t = 0) by (by apply Hs). destruct (Z.even mk); lia.
  - assert (t ≠ 0) by (intros ->; by destruct Hs as [_ Hs]; specialize (Hs eq_refl)).
    lia.
  - assert (t = 0) by (by apply Hs). lia.
Qed.

Lemma shr_shifted m e n :
  0 ≤ m → 0 < n →
  ∃ mrs, shr (shr_record_of_loc m loc_Exact) e n = (mrs, e + n) ∧ shifted m n mrs.
Proof.
  intros Hm Hn. destruct n as [|p|p]; [lia| |lia].
  eexists. split; [reflexivity|].
  apply (iter_pos_invariant shr_1 (shifted m) (shr_1_shifted m) p 0); [lia|].
  simpl. split; [done|]. split; [done|]. exists 0. simpl. lia.
Qed.

Lemma shr_nothing mrs e n : n ≤ 0 → shr mrs e n = (mrs, e).
Proof. intros Hn. destruct n; [done|lia|done]. Qed.

Lemma fexp_eq x : fexp prec emax x = Z.max (x - 53) (-1074).
Proof. reflexivity. Qed.

(** The rounding done by the operations: the exact value [m * 2^e] becomes
    [z * 2^e2], at most [h * 2^e] away, where [h] is at most [2^-53 * m] or,
    below the normal range, [h * 2^e] is [2^-1075]; the result overflows
    when [e2] is beyond the range, which a value below [2^1023] excludes. *)
Lemma binary_round_aux_spec s (m : positive) e :
  ∃ z e2 h,
    binary_round_aux prec emax s (Z.pos m) e loc_Exact = of_mantissa s z e2 ∧
    0 ≤ z ∧ e ≤ e2 ∧ 0 ≤ h ∧
    - h ≤ 2 ^ (e2 - e) * z - Z.pos m ≤ h ∧
    (2 ^ 53 * h ≤ Z.pos m ∨ (e < -1074 ∧ h = 2 ^ (-1075 - e))) ∧
    (Z.pos (digits2_pos m) + e ≤ 1023 → e ≤ 971 → e2 ≤ 971).
Proof.
  pose proof (digits2_pos_bounds m) as [Hlo Hhi].
  set (d := Z.pos (digits2_pos m)) in *.
  unfold binary_round_aux, shr_fexp. cbn [Zdigits2]. fold d.
  rewrite fexp_eq. set (n := Z.max (d + e - 53) (-1074) - e).
  destruct (Z.le_gt_cases n 0) as [Hn|Hn].
  - rewrite shr_nothing by done.
    cbn [shr_record_of_loc shr_m loc_of_shr_record round_nearest_even Zdigits2].
    fold d. rewrite fexp_eq. fold n. rewrite shr_nothing by done.
    cbn [shr_record_of_loc shr_m].
    exists (Z.pos m), e, 0. rewrite Z.sub_diag, Z.pow_0_r.
    split; [done|]. split; [lia|]. split; [lia|]. split; [lia|].
    split; [lia|]. split; [left; lia | done].
  - destruct (shr_shifted (Z.pos m) e n ltac:(lia) ltac:(lia))
      as (mrs & -> & Hsh).
    destruct (round_shifted (Z.pos m) n mrs ltac:(lia) Hsh) as (Hz & Hmk & Herr).
    set (z := round_nearest_even (shr_m mrs) (loc_of_shr_record mrs)) in *.
    assert (0 ≤ shr_m mrs) as Hmk0 by (by destruct Hsh).
    pose proof (pow2_pos n ltac:(lia)) as Hpn.
    pose proof (pow2_pos (n - 1) ltac:(lia)) as Hph.
    assert (shr_m mrs < 2 ^ 53 ∧
            (n ≠ d - 53 → shr_m mrs < 2 ^ 52)) as [Hmk53 Hmk52].
    { destruct (Z.le_gt_cases n d) as [Hnd|Hnd].
      - assert (2 ^ d = 2 ^ n * 2 ^ (d - n)) as Hsplit
          by (rewrite <- Z.pow_add_r by lia; f_equal; lia).
        assert (shr_m mrs < 2 ^ (d - n)) as Hb by nia.
        split.
        + assert (2 ^ (d - n) ≤ 2 ^ 53) by (apply Z.pow_le_mono_r; lia). lia.
        + intros Hne.
          assert (2 ^ (d - n) ≤ 2 ^ 52) by (apply Z.pow_le_mono_r; lia). lia.
      - assert (2 ^ d ≤ 2 ^ n) by (apply Z.pow_le_mono_r; lia).
        assert (shr_m mrs = 0) by nia. lia. }
    assert (2 ^ 53 * 2 ^ (n - 1) ≤ Z.pos m ∨
            (e < -1074 ∧ 2 ^ (n - 1) = 2 ^ (-1075 - e))) as Hh.
    { destruct (Z.eq_dec n (d - 53)) as [Hnd|Hnd].
      - left. rewrite <- Z.pow_add_r by lia.
        replace (53 + (n - 1)) with (d - 1) by lia. done.
      - right. split; [lia|]. f_equal. lia. }
    destruct (Z.lt_ge_cases z (2 ^ 53)) as [Hz53|Hz53].
    + pose proof (Zdigits2_le z 53 ltac:(lia) ltac:(lia)) as Hdz.
      rewrite fexp_eq, shr_nothing by lia.
      cbn [shr_record_of_loc shr_m].
      exists z, (e + n), (2 ^ (n - 1)).
      replace (e + n - e) with n by lia.
      split; [by destruct z|]. split; [lia|]. split; [lia|]. split; [lia|].
      split; [lia|]. split; [done|]. lia.
    + assert (z = 2 ^ 53) as Hz' by lia.
      assert (n = d - 53) as Hnd.
      { destruct (Z.eq_dec n (d - 53)); [done|]. specialize (Hmk52 ltac:(done)).
        change (2 ^ 53) with 9007199254740992 in *.
        change (2 ^ 52) with 4503599627370496 in *. lia. }
      rewrite Hz'. change (Zdigits2 (2 ^ 53)) with 54. rewrite fexp_eq.
      replace (Z.max (54 + (e + n) - 53) (-1074) - (e + n)) with 1 by lia.
      cbn [shr shr_record_of_loc SpecFloat.iter_pos].
      change (shr_1 {| shr_m := 2 ^ 53; shr_r := false; shr_s := false |})
        with {| shr_m := 2 ^ 52; shr_r := false; shr_s := false |}.
      cbn [shr_m]. exists (2 ^ 52), (e + n + 1), (2 ^ (n - 1)).
      split; [done|].
      replace (e + n + 1 - e) with (n + 1) by lia.
      rewrite pow2_succ by lia.
      change (2 ^ 53) with (2 * 2 ^ 52) in Hz'.
      split; [done|]. split; [lia|]. split; [lia|].
      split; [nia|]. split; [done|]. lia.
Qed.

Lemma two_pow_pos (e : Z) : (0 < 2 ^ e)%Q.
Proof. by apply Qpower_0_lt. Qed.

Lemma two_pow_add (a b : Z) : (2 ^ (a + b) == 2 ^ a * 2 ^ b)%Q.
Proof. by apply Qpower_plus. Qed.

Lemma two_pow_Z (n : Z) : 0 ≤ n → (inject_Z (2 ^ n) == 2 ^ n)%Q.
Proof. intros Hn. by rewrite Zpower_Qpower. Qed.

Lemma Qabs_inject_Z_le (d h : Z) :
  - h ≤ d ≤ h → (Qabs (inject_Z d) <= inject_Z h)%Q.
Proof.
  intros [H1 H2]. apply Qabs_Qle_condition.
  rewrite <- inject_Z_opp. rewrite <- !Zle_Qle. done.
Qed.

Lemma of_mantissa_finite s z e :
  0 ≤ z → e ≤ 971 → sf_finite (of_mantissa s z e) = true.
Proof.
  intros Hz He. destruct z as [|p|p]; [done| |lia]. simpl.
  by replace (e <=? emax - prec) with true
    by (symmetry; apply Z.leb_le; change (emax - prec) with 971; lia).
Qed.

Lemma of_mantissa_value s z e :
  0 ≤ z → sf_finite (of_mantissa s z e) = true →
  (SF2Q (of_mantissa s z e) == inject_Z (cond_Zopp s z) * 2 ^ e)%Q.
Proof.
  intros Hz Hf. destruct z as [|p|p]; [| |lia].
  - destruct s; change (0 == 0 * 2 ^ e)%Q; ring.
  - simpl in *. by destruct (e <=? emax - prec).
Qed.

(** The error of the rounding, for a result that has not overflowed. *)
Lemma round_error s (m : positive) e :
  let r := binary_round_aux prec emax s (Z.pos m) e loc_Exact in
  let X := (inject_Z (cond_Zopp s (Z.pos m)) * 2 ^ e)%Q in
  (sf_finite r = true →
   (Qabs (SF2Q r - X) <= eps * Qabs X + eta)%Q ∧
   (-1074 ≤ e → (Qabs (SF2Q r - X) <= eps * Qabs X)%Q)) ∧
  (Z.pos (digits2_pos m) + e ≤ 1023 → e ≤ 971 → sf_finite r = true).
Proof.
  intros r X.
  destruct (binary_round_aux_spec s m e)
    as (z & e2 & h & Hr & Hz & He2 & Hh & Herr & Hcase & Hfin).
  subst r. rewrite Hr.
  split; [|intros Hd He; apply of_mantissa_finite; auto].
  intros Hf. pose proof (of_mantissa_value s z e2 Hz Hf) as Hval.
  set (D := 2 ^ (e2 - e) * z - Z.pos m) in *.
  pose proof (two_pow_pos e) as HP.
  assert (2 ^ e2 == inject_Z (2 ^ (e2 - e)) * 2 ^ e)%Q as Hsplit.
  { rewrite two_pow_Z by lia. rewrite <- two_pow_add.
    by replace (e2 - e + e) with e2 by lia. }
  set (P := (2 ^ e)%Q) in *.
  set (M := inject_Z (Z.pos m)).
  assert (0 <= M)%Q as Hm0 by (subst M; by rewrite <- (Zle_Qle 0)).
  assert (SF2Q (of_mantissa s z e2) - X
          == (if s then -1 else 1) * inject_Z D * P)%Q as Hdiff.
  { rewrite Hval. subst X D. rewrite Hsplit. fold P.
    unfold Z.sub. rewrite inject_Z_plus, inject_Z_mult, inject_Z_opp.
    destruct s; cbn [cond_Zopp]; rewrite ?inject_Z_opp; ring. }
  assert (Qabs X == M * P)%Q as HX.
  { subst X. destruct s; cbn [cond_Zopp].
    - change (inject_Z (- Z.pos m)) with (- M)%Q.
      rewrite Qabs_neg by nra. ring.
    - fold M. rewrite Qabs_pos by nra. ring. }
  rewrite Hdiff, HX.
  assert (- inject_Z h <= inject_Z D <= inject_Z h)%Q as HD.
  { rewrite <- inject_Z_opp, <- !Zle_Qle. lia. }
  assert (0 <= inject_Z h)%Q as Hh0 by (by rewrite <- (Zle_Qle 0)).
  assert (0 < eta)%Q as Heta by apply two_pow_pos.
  assert (0 < eps)%Q as Heps by apply two_pow_pos.
  set (d := inject_Z D) in *. set (H := inject_Z h) in *.
  assert (Qabs ((if s then -1 else 1) * d * P) <= H * P)%Q as Hbound.
  { apply Qabs_Qle_condition. destruct s; nra. }
  destruct Hcase as [Hrel|[Hlow Hhe]].
  - assert (H * 2 ^ 53 <= M)%Q as Hrel'.
    { subst H M. change (2 ^ 53)%Q with (inject_Z (2 ^ 53)).
      rewrite <- inject_Z_mult, <- Zle_Qle. lia. }
    assert (H <= eps * M)%Q as Hb.
    { assert (eps * 2 ^ 53 == 1)%Q as He1 by reflexivity.
      change (2 ^ 53)%Q with (9007199254740992)%Q in *. nra. }
    assert (H * P <= eps * (M * P))%Q by nra.
    split; [lra|]. intros _. lra.
  - split; [|lia].
    assert (H * P == eta)%Q as Hq.
    { subst H P. rewrite Hhe, two_pow_Z by lia. rewrite <- two_pow_add.
      by replace (-1075 - e + e) with (-1075) by lia. }
    assert (0 <= M * P)%Q by nra.
    assert (0 <= eps * (M * P))%Q by nra. lra.
Qed.

Lemma value_bound_digits (m : positive) e k :
  (inject_Z (Z.pos m) * 2 ^ e < 2 ^ k)%Q → Z.pos (digits2_pos m) + e ≤ k.
Proof.
  intros Hlt. pose proof (digits2_pos_bounds m) as [Hlo _].
  set (d := Z.pos (digits2_pos m)) in *.
  assert (2 ^ (d - 1 + e) < 2 ^ k)%Q as Hp.
  { rewrite two_pow_add, <- two_pow_Z by lia.
    pose proof (two_pow_pos e).
    assert (inject_Z (2 ^ (d - 1)) <= inject_Z (Z.pos m))%Q
      by (by rewrite <- Zle_Qle).
    set (a := inject_Z (2 ^ (d - 1))) in *.
    set (b := inject_Z (Z.pos m)) in *. set (P := (2 ^ e)%Q) in *. nra. }
  apply Qpower_lt_compat_l_inv in Hp; [lia|done].
Qed.

Lemma bounded_spec m e :
  bounded prec emax m e = true →
  e = Z.max (Z.pos (digits2_pos m) + e - 53) (-1074) ∧ e ≤ 971.
Proof.
  unfold bounded, canonical_mantissa. rewrite fexp_eq.
  intros [Hc Hb]%andb_prop. apply Z.eqb_eq in Hc. apply Z.leb_le in Hb.
  change (emax - prec) with 971 in Hb. lia.
Qed.

Lemma shift_left_pos (m d : positive) :
  Z.pos (Pos.iter xO m d) = Z.pos m * 2 ^ Z.pos d.
Proof.
  induction d as [|d IH] using Pos.peano_ind.
  - simpl. lia.
  - rewrite Pos.iter_succ, Pos2Z.inj_succ, Z.pow_succ_r by lia.
    rewrite Pos2Z.inj_xO, IH. lia.
Qed.

Lemma shl_align_spec m e e' :
  ∃ mz, shl_align m e e' = (mz, Z.min e e') ∧
        Z.pos mz = Z.pos m * 2 ^ (e - Z.min e e').
Proof.
  unfold shl_align. destruct (e' - e) as [|d|d] eqn:E.
  - exists m. replace (Z.min e e') with e by lia.
    split; [done|]. rewrite Z.sub_diag. lia.
  - exists m. replace (Z.min e e') with e by lia.
    split; [done|]. rewrite Z.sub_diag. lia.
  - exists (Pos.iter xO m d). replace (Z.min e e') with e' by lia.
    split; [done|]. rewrite shift_left_pos. f_equal. f_equal. lia.
Qed.

Lemma Qabs_signed s (m : positive) (P : Q) :
  (0 < P)%Q →
  (Qabs (inject_Z (cond_Zopp s (Z.pos m)) * P) == inject_Z (Z.pos m) * P)%Q.
Proof.
  intros HP.
  assert (0 <= inject_Z (Z.pos m))%Q by (by rewrite <- (Zle_Qle 0)).
  destruct s; cbn [cond_Zopp].
  - rewrite inject_Z_opp, Qabs_neg by nra. ring.
  - rewrite Qabs_pos by nra. ring.
Qed.

(** Multiplication: the product of the values, rounded. *)
Lemma SFmul_error x y :
  valid_binary x = true → valid_binary y = true →
  sf_finite x = true → sf_finite y = true →
  (sf_finite (SFmul prec emax x y) = true →
   (Qabs (SF2Q (SFmul prec emax x y) - SF2Q x * SF2Q y)
    <= eps * Qabs (SF2Q x * SF2Q y) + eta)%Q) ∧
  ((Qabs (SF2Q x * SF2Q y) < 2 ^ 1022)%Q →
   sf_finite (SFmul prec emax x y) = true).
Proof.
  intros Hvx Hvy Hfx Hfy.
  assert (0 < eta)%Q as Heta by apply two_pow_pos.
  assert (∀ v : Q, v == 0 → Qabs (0 - v) <= eps * Qabs v + eta)%Q as Hzero.
  { intros v ->. change (0 <= eps * 0 + eta)%Q. lra. }
  destruct x as [sx|sx| |sx mx ex], y as [sy|sy| |sy my ey];
    try discriminate Hfx; try discriminate Hfy.
  - split; [|done]. intros _. apply Hzero. cbn [SF2Q]. ring.
  - split; [|done]. intros _. apply Hzero. cbn [SF2Q]. ring.
  - split; [|done]. intros _. apply Hzero. cbn [SF2Q]. ring.
  - simpl in Hvx, Hvy.
    destruct (bounded_spec _ _ Hvx) as [Hcx Hbx].
    destruct (bounded_spec _ _ Hvy) as [Hcy Hby].
    cbn [SFmul SF2Q] in *.
    assert (inject_Z (cond_Zopp sx (Z.pos mx)) * 2 ^ ex
            * (inject_Z (cond_Zopp sy (Z.pos my)) * 2 ^ ey)
            == inject_Z (cond_Zopp (xorb sx sy) (Z.pos (mx * my)))
               * 2 ^ (ex + ey))%Q as Hprod.
    { rewrite two_pow_add, Pos2Z.inj_mul.
      destruct sx, sy; cbn [xorb cond_Zopp];
        rewrite ?inject_Z_opp, inject_Z_mult; ring. }
    rewrite Hprod.
    destruct (round_error (xorb sx sy) (mx * my) (ex + ey)) as [Herr Hfin].
    split; [intros Hf; by apply Herr|].
    intros Hb. rewrite Qabs_signed in Hb by apply two_pow_pos.
    pose proof (value_bound_digits _ _ _ Hb) as Hd.
    apply Hfin; [lia|].
    pose proof (digits2_pos_bounds mx) as [Hx _].
    pose proof (digits2_pos_bounds my) as [Hy _].
    set (dx := Z.pos (digits2_pos mx)) in *.
    set (dy := Z.pos (digits2_pos my)) in *.
    assert (dx + dy - 2 < Zdigits2 (Z.pos (mx * my))) as Hdig.
    { apply Zdigits2_ge; [lia|].
      replace (dx + dy - 2) with ((dx - 1) + (dy - 1)) by lia.
      rewrite Z.pow_add_r, Pos2Z.inj_mul by lia.
      apply Z.mul_le_mono_nonneg; try done; apply Z.pow_nonneg; lia. }
    cbn [Zdigits2] in Hdig. lia.
Qed.

(** Additions end in [binary_normalize] of an integer at an exponent of
    the range: the rounding error is relative. *)
Lemma binary_normalize_error S e :
  -1074 ≤ e →
  let r := binary_normalize prec emax S e false in
  (sf_finite r = true →
   (Qabs (SF2Q r - inject_Z S * 2 ^ e) <= eps * Qabs (inject_Z S * 2 ^ e))%Q) ∧
  ((Qabs (inject_Z S * 2 ^ e) < 2 ^ 1022)%Q → sf_finite r = true).
Proof.
  intros He r. subst r.
  assert (0 < eps)%Q as Heps by apply two_pow_pos.
  assert (∀ s (p : positive),
    (sf_finite (binary_round prec emax s p e) = true →
     (Qabs (SF2Q (binary_round prec emax s p e)
            - inject_Z (cond_Zopp s (Z.pos p)) * 2 ^ e)
      <= eps * Qabs (inject_Z (cond_Zopp s (Z.pos p)) * 2 ^ e))%Q) ∧
    ((Qabs (inject_Z (cond_Zopp s (Z.pos p)) * 2 ^ e) < 2 ^ 1022)%Q →
     sf_finite (binary_round prec emax s p e) = true)) as Hround.
  { intros s p. unfold binary_round. rewrite fexp_eq.
    set (d := Z.pos (digits2_pos p)).
    destruct (shl_align_spec p e (Z.max (d + e - 53) (-1074)))
      as (mz & -> & Hmz).
    set (ez := Z.min e (Z.max (d + e - 53) (-1074))) in *.
    assert (inject_Z (cond_Zopp s (Z.pos p)) * 2 ^ e
            == inject_Z (cond_Zopp s (Z.pos mz)) * 2 ^ ez)%Q as Hsame.
    { assert (2 ^ e == inject_Z (2 ^ (e - ez)) * 2 ^ ez)%Q as ->.
      { rewrite two_pow_Z by lia. rewrite <- two_pow_add.
        by replace (e - ez + ez) with e by lia. }
      rewrite Hmz.
      destruct s; cbn [cond_Zopp]; rewrite ?inject_Z_opp, inject_Z_mult; ring. }
    destruct (round_error s mz ez) as [Herr Hfin].
    split.
    - intros Hf. rewrite Hsame. apply (Herr Hf). lia.
    - intros Hp. pose proof Hp as Hp'.
      rewrite Qabs_signed in Hp' by apply two_pow_pos.
      pose proof (value_bound_digits _ _ _ Hp') as Hd. fold d in Hd.
      rewrite Hsame in Hp. rewrite Qabs_signed in Hp by apply two_pow_pos.
      pose proof (value_bound_digits _ _ _ Hp) as Hdz.
      apply Hfin; lia. }
  destruct S as [|p|p]; cbn [binary_normalize].
  - split; [|done]. intros _.
    change (Qabs (0 - 0 * 2 ^ e) <= eps * Qabs (0 * 2 ^ e))%Q.
    assert (0 * 2 ^ e == 0)%Q as -> by ring. change (0 <= eps * 0)%Q. lra.
  - apply (Hround false p).
  - apply (Hround true p).
Qed.

Lemma aligned_value s (m : positive) e ez :
  ez ≤ e →
  (inject_Z (cond_Zopp s (Z.pos (shl_align m e ez).1)) * 2 ^ ez
   == SF2Q (S754_finite s m e))%Q.
Proof.
  intros Hle. destruct (shl_align_spec m e ez) as (mz & -> & Hmz).
  replace (Z.min e ez) with ez in Hmz by lia. cbn [fst SF2Q].
  assert (2 ^ e == inject_Z (2 ^ (e - ez)) * 2 ^ ez)%Q as ->.
  { rewrite two_pow_Z by lia. rewrite <- two_pow_add.
    by replace (e - ez + ez) with e by lia. }
  rewrite Hmz.
  destruct s; cbn [cond_Zopp]; rewrite ?inject_Z_opp, inject_Z_mult; ring.
Qed.

Lemma Qabs_zero_error (v : Q) : (Qabs (v - v) <= eps * Qabs v)%Q.
Proof.
  assert (0 < eps)%Q as Heps by apply two_pow_pos.
  assert (v - v == 0)%Q as -> by ring.
  pose proof (Qabs_nonneg v). change (Qabs 0) with 0%Q. nra.
Qed.

(** Addition: the sum of the values, rounded. *)
Lemma SFadd_error x y :
  valid_binary x = true → valid_binary y = true →
  sf_finite x = true → sf_finite y = true →
  (sf_finite (SFadd prec emax x y) = true →
   (Qabs (SF2Q (SFadd prec emax x y) - (SF2Q x + SF2Q y))
    <= eps * Qabs (SF2Q x + SF2Q y))%Q) ∧
  ((Qabs (SF2Q x + SF2Q y) < 2 ^ 1022)%Q →
   sf_finite (SFadd prec emax x y) = true).
Proof.
  intros Hvx Hvy Hfx Hfy.
  destruct x as [sx|sx| |sx mx ex], y as [sy|sy| |sy my ey];
    try discriminate Hfx; try discriminate Hfy.
  - split; [|by destruct sx, sy]. intros _.
    assert (SF2Q (SFadd prec emax (S754_zero sx) (S754_zero sy)) = 0%Q) as ->
      by (by destruct sx, sy).
    apply (Qabs_zero_error 0).
  - split; [|done]. intros _. cbn [SFadd].
    assert (0 + SF2Q (S754_finite sy my ey) == SF2Q (S754_finite sy my ey))%Q
      as -> by ring.
    apply Qabs_zero_error.
  - split; [|done]. intros _. cbn [SFadd].
    assert (SF2Q (S754_finite sx mx ex) + 0 == SF2Q (S754_finite sx mx ex))%Q
      as -> by ring.
    apply Qabs_zero_error.
  - simpl in Hvx, Hvy.
    destruct (bounded_spec _ _ Hvx) as [Hcx Hbx].
    destruct (bounded_spec _ _ Hvy) as [Hcy Hby].
    cbn [SFadd]. set (ez := Z.min ex ey).
    pose proof (aligned_value sx mx ex ez ltac:(lia)) as Hx.
    pose proof (aligned_value sy my ey ez ltac:(lia)) as Hy.
    set (X := cond_Zopp sx (Z.pos (shl_align mx ex ez).1)) in *.
    set (Y := cond_Zopp sy (Z.pos (shl_align my ey ez).1)) in *.
    assert (SF2Q (S754_finite sx mx ex) + SF2Q (S754_finite sy my ey)
            == inject_Z (X + Y) * 2 ^ ez)%Q as Hsum
      by (rewrite <- Hx, <- Hy, inject_Z_plus; ring).
    rewrite Hsum.
    apply binary_normalize_error. lia.
Qed.

(** Subtraction: the difference of the values, rounded. *)
Lemma SFsub_error x y :
  valid_binary x = true → valid_binary y = true →
  sf_finite x = true → sf_finite y = true →
  (sf_finite (SFsub prec emax x y) = true →
   (Qabs (SF2Q (SFsub prec emax x y) - (SF2Q x - SF2Q y))
    <= eps * Qabs (SF2Q x - SF2Q y))%Q) ∧
  ((Qabs (SF2Q x - SF2Q y) < 2 ^ 1022)%Q →
   sf_finite (SFsub prec emax x y) = true).
Proof.
  intros Hvx Hvy Hfx Hfy.
  destruct x as [sx|sx| |sx mx ex], y as [sy|sy| |sy my ey];
    try discriminate Hfx; try discriminate Hfy.
  - split; [|by destruct sx, sy]. intros _.
    assert (SF2Q (SFsub prec emax (S754_zero sx) (S754_zero sy)) = 0%Q) as ->
      by (by destruct sx, sy).
    apply (Qabs_zero_error 0).
  - split; [|done]. intros _. cbn [SFsub].
    assert (SF2Q (S754_zero sx) - SF2Q (S754_finite sy my ey)
            == SF2Q (S754_finite (negb sy) my ey))%Q as ->.
    { cbn [SF2Q]. destruct sy; cbn [negb cond_Zopp];
        rewrite ?inject_Z_opp; ring. }
    apply Qabs_zero_error.
  - split; [|done]. intros _. cbn [SFsub].
    assert (SF2Q (S754_finite sx mx ex) - SF2Q (S754_zero sy)
            == SF2Q (S754_finite sx mx ex))%Q as -> by (cbn [SF2Q]; ring).
    apply Qabs_zero_error.
  - simpl in Hvx, Hvy.
    destruct (bounded_spec _ _ Hvx) as [Hcx Hbx].
    destruct (bounded_spec _ _ Hvy) as [Hcy Hby].
    cbn [SFsub]. set (ez := Z.min ex ey).
    pose proof (aligned_value sx mx ex ez ltac:(lia)) as Hx.
    pose proof (aligned_value sy my ey ez ltac:(lia)) as Hy.
    set (X := cond_Zopp sx (Z.pos (shl_align mx ex ez).1)) in *.
    set (Y := cond_Zopp sy (Z.pos (shl_align my ey ez).1)) in *.
    assert (SF2Q (S754_finite sx mx ex) - SF2Q (S754_finite sy my ey)
            == inject_Z (X - Y) * 2 ^ ez)%Q as Hsum.
    { rewrite <- Hx, <- Hy. unfold Z.sub.
      rewrite inject_Z_plus, inject_Z_opp. ring. }
    rewrite Hsum.
    apply binary_normalize_error. lia.
Qed.

(** A sum that is finite has finite terms. *)
Lemma SFadd_finite_inv x y :
  sf_finite (SFadd prec emax x y) = true →
  sf_finite x = true ∧ sf_finite y = true.
Proof.
  destruct x as [sx|sx| |sx mx ex], y as [sy|sy| |sy my ey]; try done.
  by destruct sx, sy.
Qed.

Lemma Qscale_le (u k x : Q) : (u <= k → 0 <= x → u * x <= k * x)%Q.
Proof. intros. nra. Qed.

Lemma Qabs_le_iff (x y : Q) : (Qabs x <= y)%Q ↔ (- y <= x ∧ x <= y)%Q.
Proof. apply Qabs_Qle_condition. Qed.

(** The arithmetic of one smoothing step under rounding errors. *)
Lemma smoothing_algebra (u h a b c t p q r M : Q) :
  (0 < u)%Q → (u <= 1 # 2)%Q → (0 <= h)%Q →
  (0 <= a)%Q → (a <= 1)%Q →
  (Qabs c <= M)%Q → (Qabs t <= M)%Q →
  (Qabs (b - (1 - a)) <= u * Qabs (1 - a))%Q →
  (Qabs (p - b * t) <= u * Qabs (b * t) + h)%Q →
  (Qabs (q - a * c) <= u * Qabs (a * c) + h)%Q →
  (Qabs (r - (p + q)) <= u * Qabs (p + q))%Q →
  (Qabs (r - ((1 - a) * t + a * c)) <= 8 * u * M + 4 * h)%Q.
Proof.
  intros Hu Hu2 Hh Ha0 Ha1 Hc Ht Hb Hp Hq Hr.
  apply Qabs_le_iff in Hc, Ht.
  assert (0 <= M)%Q as HM by lra.
  rewrite (Qabs_pos (1 - a)) in Hb by lra. apply Qabs_le_iff in Hb.
  assert (Qabs (b * t) <= (1 - a) * (1 + u) * M)%Q as Hbt.
  { apply Qabs_le_iff. split; nra. }
  assert (Qabs (a * c) <= a * M)%Q as Hac.
  { apply Qabs_le_iff. split; nra. }
  assert (Qabs (p - b * t) <= u * ((1 - a) * (1 + u) * M) + h)%Q as Hp' by nra.
  assert (Qabs (q - a * c) <= u * (a * M) + h)%Q as Hq' by nra.
  clear Hp Hq. apply Qabs_le_iff in Hp', Hq', Hbt, Hac.
  set (S := ((1 - a) * t + a * c)%Q).
  assert (- M <= S ∧ S <= M)%Q as HS by (subst S; split; nra).
  set (E := ((3 * u + u * u) * M + 2 * h)%Q).
  assert (0 <= u * M ∧ 0 <= u * u * M)%Q as [HuM HuuM] by (split; nra).
  assert (- E <= p + q - S ∧ p + q - S <= E)%Q as HE.
  { subst E S. split; nra. }
  assert (Qabs (p + q) <= M + E)%Q as Hpq.
  { apply Qabs_le_iff. lra. }
  assert (Qabs (r - (p + q)) <= u * (M + E))%Q as Hr' by nra.
  apply Qabs_le_iff in Hr'.
  assert (0 <= E)%Q as HE0 by lra.
  assert (E + u * (M + E) <= 8 * u * M + 4 * h)%Q as Hfinal.
  { subst E. assert (0 <= u * h ∧ 0 <= u * u * u * M)%Q as [? ?] by (split; nra).
    assert (u * u * M <= (1 # 2) * (u * M))%Q by nra.
    assert (u * u * u * M <= (1 # 4) * (u * M))%Q by nra.
    assert (u * h <= (1 # 2) * h)%Q by nra.
    nra. }
  apply Qabs_le_iff. fold S. lra.
Qed.

Lemma is_finite_SF (x : float) : is_finite x = sf_finite (Prim2SF x).
Proof.
  unfold is_finite, is_nan, is_infinity.
  rewrite !FloatAxioms.eqb_spec, abs_spec.
  change (Prim2SF infinity) with (S754_infinity false).
  destruct (Prim2SF x) as [s|s| |s m e]; try done.
  - by destruct s.
  - unfold SFeqb. cbn [SFabs SFcompare].
    rewrite Z.compare_refl, Pos.compare_cont_refl. by destruct s.
Qed.

Lemma mul_error (x y : float) :
  is_finite x = true → is_finite y = true →
  (is_finite (x * y) = true →
   (Qabs (value (x * y) - value x * value y)
    <= eps * Qabs (value x * value y) + eta)%Q) ∧
  ((Qabs (value x * value y) < 2 ^ 1022)%Q → is_finite (x * y) = true).
Proof.
  rewrite !is_finite_SF. unfold value. rewrite mul_spec.
  apply SFmul_error; apply Prim2SF_valid.
Qed.

Lemma add_error (x y : float) :
  is_finite x = true → is_finite y = true →
  (is_finite (x + y) = true →
   (Qabs (value (x + y) - (value x + value y))
    <= eps * Qabs (value x + value y))%Q) ∧
  ((Qabs (value x + value y) < 2 ^ 1022)%Q → is_finite (x + y) = true).
Proof.
  rewrite !is_finite_SF. unfold value. rewrite add_spec.
  apply SFadd_error; apply Prim2SF_valid.
Qed.

Lemma sub_error (x y : float) :
  is_finite x = true → is_finite y = true →
  (is_finite (x - y) = true →
   (Qabs (value (x - y) - (value x - value y))
    <= eps * Qabs (value x - value y))%Q) ∧
  ((Qabs (value x - value y) < 2 ^ 1022)%Q → is_finite (x - y) = true).
Proof.
  rewrite !is_finite_SF. unfold value. rewrite sub_spec.
  apply SFsub_error; apply Prim2SF_valid.
Qed.

Lemma add_finite_inv (x y : float) :
  is_finite (x + y) = true → is_finite x = true ∧ is_finite y = true.
Proof. rewrite !is_finite_SF, add_spec. apply SFadd_finite_inv. Qed.

Lemma value_one : (value 1 == 1)%Q.
Proof. reflexivity. Qed.

End RoundFacts.

(** ** The playback engine *)

Module EngineFacts.
Section Facts.
Context {F : Float32}.
Import AudioController EngineSpec.

Implicit Types (s : t) (data : FloatArrayWrapper.t) (fr : list f32).

Lemma phase_after_S rate phase k :
  phase_after rate (phase + rate)%float k = phase_after rate phase (S k).
Proof. unfold phase_after. by rewrite Nat.iter_succ_r. Qed.

Lemma set_number_nat fr (j : nat) x :
  TypedArray.set_number fr (Z.of_nat j) x = <[j := fround x]> fr.
Proof.
  unfold TypedArray.set_number, TypedArray.set.
  destruct (Z.ltb_spec (Z.of_nat j) 0); [lia|]. by rewrite Nat2Z.id.
Qed.

Lemma play_body_nat data rate volume (j : nat) phase fr :
  play_body data rate volume (Z.of_nat j) (phase, fr)
  = ((phase + rate)%float, <[j := sample_at data rate volume phase 0]> fr).
Proof. unfold play_body. simpl. by rewrite set_number_nat. Qed.

(** The loop of [play], started at counter [j]: the phase has advanced by
    [k] additions, slots [j .. j+k-1] of the frame hold their samples (as
    far as the frame reaches), every other slot is untouched. *)
Lemma play_loop data rate volume k : ∀ (j : nat) phase fr,
  let st := for_loop k (Z.of_nat j) (play_body data rate volume) (phase, fr) in
  st.1 = phase_after rate phase k ∧
  length st.2 = length fr ∧
  ∀ i : nat,
    st.2 !! i =
      if decide ((j ≤ i < j + k)%nat ∧ (i < length fr)%nat)
      then Some (sample_at data rate volume phase (i - j))
      else fr !! i.
Proof.
  induction k as [|k IH]; intros j phase fr.
  - simpl. repeat split. intros i. case_decide; [lia|done].
  - intros st. subst st. cbn [for_loop]. rewrite play_body_nat.
    replace (Z.of_nat j + 1) with (Z.of_nat (S j)) by lia.
    destruct (IH (S j) (phase + rate)%float
                (<[j := sample_at data rate volume phase 0]> fr))
      as (Hp & Hl & Hi).
    split; [|split].
    + by rewrite Hp, phase_after_S.
    + by rewrite Hl, length_insert.
    + intros i. rewrite Hi, length_insert.
      destruct (decide (i = j)) as [->|Hne].
      * case_decide; [lia|]. case_decide.
        -- rewrite list_lookup_insert_eq by lia.
           by replace (j - j)%nat with 0%nat by lia.
        -- rewrite list_insert_ge by lia. done.
      * rewrite list_lookup_insert_ne by done.
        case_decide; case_decide; try lia; [|done].
        unfold sample_at. rewrite phase_after_S.
        by replace (S (i - S j)) with (i - j)%nat by lia.
Qed.

(** C2.  With a result frame, a track on deck and a buffer bound, one
    call of [play] for a frame of [n >= 0] samples computes, for
    [i = 0 .. n-1] in order, [phase := phase + rate] and then
    [resultFrame[i] := getElement(round(phase)) * volume]: slot [i] ends up
    holding the sample read at the phase after [i + 1] additions (stored
    in single precision, for the slots the frame has), the other slots are
    untouched.  After the loop the phase is reset to 0 if the final phase is
    [>= getSize()] or the rate is 0, and keeps its final value otherwise;
    the test looks at the final phase only.  The frame is then handed to the
    sink, and rate, volume, buffer and deck flag are as before. *)
Theorem play_synthesizes (n : nat) s frame0 data :
  resultFrame s = Some frame0 →
  trackOnDeck s = true →
  audioData s = Some data →
  let final := phase_after (rate s) (phase s) n in
  ∃ frame',
    play (Z.of_nat n) s =
      ({| rate := rate s; volume := volume s; audioData := Some data;
          resultFrame := Some frame';
          phase := if wraps data (rate s) final then 0%float else final;
          trackOnDeck := true |},
       [Enqueue frame' (Z.of_nat n)]) ∧
    length frame' = length frame0 ∧
    (∀ i : nat, (i < n)%nat → (i < length frame0)%nat →
       frame' !! i = Some (sample_at data (rate s) (volume s) (phase s) i)) ∧
    (∀ i : nat, (n ≤ i)%nat → frame' !! i = frame0 !! i).
Proof.
  intros Hf Hd Ha final.
  destruct (play_loop data (rate s) (volume s) n 0 (phase s) frame0)
    as (Hp & Hl & Hi).
  eexists. split; [|split; [exact Hl|split]].
  - unfold play. rewrite Hf, Hd, Ha, Nat2Z.id. simpl.
    change (Z.of_nat 0) with 0 in Hp. rewrite Hp. fold final.
    reflexivity.
  - intros i Hin Hil. rewrite Hi. case_decide; [|lia].
    by rewrite Nat.sub_0_r.
  - intros i Hni. rewrite Hi. case_decide; [lia|done].
Qed.

(** C8.  When the result frame is absent, no track is on deck, or no
    buffer is bound, [play] returns at once: phase, rate, volume and result
    frame (the whole engine state) are unchanged and nothing is handed to
    the audio sink. *)
Theorem play_inactive size s :
  resultFrame s = None ∨ trackOnDeck s = false ∨ audioData s = None →
  play size s = (s, []).
Proof.
  unfold play. intros [H|[H|H]]; rewrite H; [done| |].
  - by destruct (resultFrame s).
  - by destruct (resultFrame s), (trackOnDeck s).
Qed.

(** C10.  For every buffer and every negative index [i], [getElement i]
    is 0: the chunk index [floor(i / 4096)] is negative, no chunk is found
    there, and the branch for a missing chunk returns 0.  So a phase that
    rounds to a negative index, as a negative rate produces, makes [play]
    read silence. *)
Theorem getElement_negative data i :
  i < 0 →
  i / FloatArrayWrapper.innerArraySize < 0 ∧
  array_get (FloatArrayWrapper.dataList data)
    (i / FloatArrayWrapper.innerArraySize) = None ∧
  FloatArrayWrapper.getElement data i = f32_zero ∧
  ∀ phase, Num.Math_round phase = Some i →
    getElementAt data (Num.Math_round phase) = f32_zero.
Proof.
  intros Hi. unfold FloatArrayWrapper.innerArraySize.
  assert (i / 4096 < 0) as Hk by zdiv.
  assert (array_get (FloatArrayWrapper.dataList data) (i / 4096) = None) as Hg.
  { unfold array_get. by destruct (Z.ltb_spec (i / 4096) 0); [|lia]. }
  assert (FloatArrayWrapper.getElement data i = f32_zero) as He.
  { unfold FloatArrayWrapper.getElement, FloatArrayWrapper.innerArraySize.
    by rewrite Hg. }
  repeat split; try done. by intros phase ->.
Qed.

End Facts.

Local Existing Instance Float32_binary64.
Import Examples.

Lemma play_synthesizes_witness :
  ∃ frame',
    AudioController.play 3 reverse_engine =
      ({| AudioController.rate := (-1.0)%float;
          AudioController.volume := 0.5%float;
          AudioController.audioData := Some three_samples;
          AudioController.resultFrame := Some frame';
          AudioController.phase := (-1.5)%float;
          AudioController.trackOnDeck := true |},
       [AudioController.Enqueue frame' 3]) ∧
    frame' !! 0%nat = Some 10%float ∧ frame' !! 1%nat = Some 5%float ∧
    frame' !! 2%nat = Some 0%float ∧ frame' !! 3%nat = Some 0%float.
Proof.
  destruct (play_synthesizes 3 reverse_engine (TypedArray.make 4) three_samples
              eq_refl eq_refl eq_refl) as (frame' & Hplay & _ & Hin & Hout).
  assert (3 < length (TypedArray.make 4))%nat as Hlen by (vm_compute; lia).
  exists frame'. split; [exact Hplay|]. repeat split.
  - refine (eq_trans (Hin 0%nat _ _) _); [lia..|]. vm_compute. reflexivity.
  - refine (eq_trans (Hin 1%nat _ _) _); [lia..|]. vm_compute. reflexivity.
  - refine (eq_trans (Hin 2%nat _ _) _); [lia..|]. vm_compute. reflexivity.
  - refine (eq_trans (Hout 3%nat _) _); [lia|]. vm_compute. reflexivity.
Defined.

Lemma play_inactive_witness :
  AudioController.play 3
    {| AudioController.rate := 1.0; AudioController.volume := 1.0;
       AudioController.audioData := Some three_samples;
       AudioController.resultFrame := Some (TypedArray.make 4);
       AudioController.phase := 7.0; AudioController.trackOnDeck := false |}
  = ({| AudioController.rate := 1.0; AudioController.volume := 1.0;
        AudioController.audioData := Some three_samples;
        AudioController.resultFrame := Some (TypedArray.make 4);
        AudioController.phase := 7.0; AudioController.trackOnDeck := false |},
     []).
Proof. apply play_inactive. right. left. reflexivity. Defined.

Lemma getElement_negative_witness :
  -1 < 0 ∧ FloatArrayWrapper.getElement three_samples (-1) = 0%float ∧
  Num.Math_round (-1.4)%float = Some (-1).
Proof.
  assert (-1 < 0) as H by lia.
  split; [exact H|]. split; [|reflexivity].
  exact (proj1 (proj2 (proj2 (getElement_negative three_samples (-1) H)))).
Defined.

End EngineFacts.

(** ** The rate controller *)

Module RateFacts.
Section Facts.
Context {F : Float32}.
Import Num NumSpec NumFacts ArithFacts RoundFacts AccelerationToRate RateSpec.

Implicit Types (s : t) (calc : motion) (a : AudioController.t).

Lemma Math_min_nan lo x : is_nan x = true → Math_min lo x = nan.
Proof. unfold Math_min. intros ->. by rewrite orb_true_r. Qed.

Lemma Math_max_nan lo : Math_max lo nan = nan.
Proof. unfold Math_max. change (is_nan nan) with true. by rewrite orb_true_r. Qed.

(** The clamp [Math.max(lo, Math.min(hi, x))] of a number [x]. *)
Lemma clamp_within lo hi x :
  (lo <=? hi)%float = true → is_nan x = false →
  within lo hi (Math_max lo (Math_min hi x)) = true.
Proof.
  intros Hlohi Hx. destruct (leb_numbers _ _ Hlohi) as [Hlo Hhi].
  destruct (Math_min_numbers hi x Hhi Hx) as (Hm & Hmhi & _).
  assert (is_nan (Math_min hi x) = false) as Hmn by (by destruct Hm as [-> | ->]).
  destruct (Math_max_numbers lo (Math_min hi x) Hlo Hmn) as (Hr & Hlor & _).
  unfold within. rewrite Hlor. simpl. by destruct Hr as [-> | ->].
Qed.

(** The clamp leaves a number of the interval as it is, up to [===]. *)
Lemma clamp_inside lo hi x :
  within lo hi x = true →
  (Math_max lo (Math_min hi x) =? x)%float = true.
Proof.
  unfold within. intros [Hlo Hhi]%andb_prop.
  destruct (leb_numbers _ _ Hlo) as [Hlon Hxn].
  destruct (leb_numbers _ _ Hhi) as [_ Hhin].
  destruct (Math_min_numbers hi x Hhin Hxn) as (Hm & _ & Hmx).
  assert ((Math_min hi x =? x)%float = true) as Hmeq.
  { destruct Hm as [E|E]; rewrite E in *.
    - apply eqb_cmp. apply leb_cmp in Hmx, Hhi.
      rewrite cmp_flip in Hhi. destruct Hmx as [Hc|Hc]; [|done].
      rewrite Hc in Hhi. simpl in Hhi. intuition congruence.
    - apply eqb_cmp, SFcompare_refl. by apply is_nan_false. }
  assert (is_nan (Math_min hi x) = false) as Hmn by (by destruct Hm as [-> | ->]).
  destruct (Math_max_numbers lo _ Hlon Hmn) as (Hr & _ & Hmr).
  destruct Hr as [E|E]; rewrite E in *; [|done].
  rewrite <- (eqb_leb_r _ _ lo Hmeq) in Hlo.
  apply (eqb_trans _ (Math_min hi x)); [|done].
  apply eqb_cmp. apply leb_cmp in Hlo, Hmr.
  rewrite cmp_flip in Hmr. destruct Hlo as [Hc|Hc]; [|done].
  rewrite Hc in Hmr. simpl in Hmr. intuition congruence.
Qed.

Lemma updateRate_fields calc s a :
  let m := motionMagnitude s calc in
  let target := nextTargetRate s m in
  let x := applySmoothingToRate s (currentRate s) target in
  let r := Math_max (minRate s) (Math_min (maxRate s) x) in
  updateRate calc s a = (with_rates s r target, AudioController.set_rate r a).
Proof. reflexivity. Qed.

(** C6.  One [updateRate] tick sets [targetRate] to
    [baseRate * (1 + m * sensitivity)] when the motion magnitude [m]
    satisfies [m >= motionThreshold] (a magnitude equal to the threshold is
    Active), and to [baseRate] when [m < motionThreshold]. *)
Theorem updateRate_targetRate calc s a :
  let m := motionMagnitude s calc in
  let s' := (updateRate calc s a).1 in
  (geb m (motionThreshold s) = true →
     targetRate s' = (baseRate s * (1 + m * sensitivity s))%float) ∧
  ((m <? motionThreshold s)%float = true → targetRate s' = baseRate s).
Proof.
  intros m s'. subst s'. rewrite updateRate_fields. simpl. fold m.
  unfold nextTargetRate, geb. split.
  - intros H. by rewrite (leb_not_ltb _ _ H).
  - by intros ->.
Qed.

(** C5, amended.  With [minRate <= maxRate], the value one [updateRate]
    tick writes to the engine's [rate] lies within [minRate, maxRate]
    whenever the smoothed rate is a number, however far outside the
    interval it lies; when the smoothed rate is NaN, NaN is written. *)
Theorem updateRate_rate_clamped calc s a :
  let target := nextTargetRate s (motionMagnitude s calc) in
  let x := applySmoothingToRate s (currentRate s) target in
  let r := AudioController.rate (updateRate calc s a).2 in
  (minRate s <=? maxRate s)%float = true →
  (is_nan x = false → within (minRate s) (maxRate s) r = true) ∧
  (is_nan x = true → r = nan).
Proof.
  intros target x r Hlohi. subst r. rewrite updateRate_fields. simpl.
  fold target. fold x. split.
  - intros Hx. by apply clamp_within.
  - intros Hx. by rewrite Math_min_nan, Math_max_nan.
Qed.

(** One smoothing step with a weight between 0 and 1 on finite rates: a
    result that is finite is between the two rates, up to the rounding of
    the three operations; and the result is finite when the rates are at
    most [2^1021] in magnitude. *)
Lemma applySmoothingToRate_between s (c t : float) :
  is_finite (smoothing s) = true → is_finite c = true → is_finite t = true →
  (0 <= value (smoothing s))%Q → (value (smoothing s) <= 1)%Q →
  (is_finite (applySmoothingToRate s c t) = true →
   (Qmin (value c) (value t) - tolerance c t
    <= value (applySmoothingToRate s c t))%Q ∧
   (value (applySmoothingToRate s c t)
    <= Qmax (value c) (value t) + tolerance c t)%Q) ∧
  ((Qabs (value c) <= 2 ^ 1021)%Q → (Qabs (value t) <= 2 ^ 1021)%Q →
   is_finite (applySmoothingToRate s c t) = true).
Proof.
  intros Hfa Hfc Hft Ha0 Ha1. unfold applySmoothingToRate, tolerance.
  set (alpha := smoothing s) in *.
  set (M := Qmax (Qabs (value c)) (Qabs (value t))).
  assert (Qabs (value c) <= M)%Q as HcM by apply Q.le_max_l.
  assert (Qabs (value t) <= M)%Q as HtM by apply Q.le_max_r.
  assert (0 < eps)%Q as Hu by apply two_pow_pos.
  assert (eps <= 1 # 1024)%Q as Hu2 by (vm_compute; discriminate).
  assert (0 < eta)%Q as Hh by apply two_pow_pos.
  assert (eta <= 1)%Q as Hh1 by (vm_compute; discriminate).
  set (a := value alpha) in *.
  destruct (sub_error 1 alpha eq_refl Hfa) as [Hb Hfb].
  rewrite value_one in Hb, Hfb. fold a in Hb, Hfb.
  assert (is_finite (1 - alpha) = true) as Hfb'.
  { apply Hfb. apply Qabs_Qlt_condition.
    assert (2 <= 2 ^ 1022)%Q by (vm_compute; discriminate). lra. }
  specialize (Hb Hfb'). clear Hfb.
  set (beta := (1 - alpha)%float) in *. set (b := value beta) in *.
  destruct (mul_error beta t Hfb' Hft) as [Hp Hfp]. fold b in Hp, Hfp.
  destruct (mul_error alpha c Hfa Hfc) as [Hq Hfq]. fold a in Hq, Hfq.
  split.
  - intros Hfin. destruct (add_finite_inv _ _ Hfin) as [Hfp' Hfq'].
    specialize (Hp Hfp'). specialize (Hq Hfq').
    pose proof (proj1 (add_error _ _ Hfp' Hfq') Hfin) as Hr.
    set (p := value (beta * t)) in *. set (q := value (alpha * c)) in *.
    set (r := value (beta * t + alpha * c)) in *.
    pose proof (smoothing_algebra eps eta a b (value c) (value t) p q r M
                  Hu ltac:(lra) ltac:(lra) Ha0 Ha1 HcM HtM Hb Hp Hq Hr)
      as Hfinal.
    apply Qabs_le_iff in Hfinal.
    assert (2 ^ (-50) == 8 * eps)%Q as -> by reflexivity.
    assert (2 ^ (-1073) == 4 * eta)%Q as -> by reflexivity.
    set (S := ((1 - a) * value t + a * value c)%Q) in *.
    assert (Qmin (value c) (value t) <= S ∧ S <= Qmax (value c) (value t))%Q
      as [HSlo HShi].
    { pose proof (Q.le_min_l (value c) (value t)).
      pose proof (Q.le_min_r (value c) (value t)).
      pose proof (Q.le_max_l (value c) (value t)).
      pose proof (Q.le_max_r (value c) (value t)).
      subst S. split; nra. }
    split; lra.
  - intros Hc Ht.
    assert (M <= 2 ^ 1021)%Q as HM by (by apply Q.max_lub).
    assert (2 ^ 1022 == 2 * 2 ^ 1021)%Q as HB by reflexivity.
    assert (8 <= 2 ^ 1021)%Q as HB8 by (vm_compute; discriminate).
    assert (0 <= b ∧ b <= (1 - a) * (1 + eps))%Q as Hbr.
    { rewrite (Qabs_pos (1 - a)) in Hb by lra. apply Qabs_le_iff in Hb. nra. }
    apply Qabs_le_iff in HcM, HtM.
    assert (0 <= M)%Q as HM0 by lra.
    assert (0 <= (1 - a) * M ∧ (1 - a) * M <= M ∧ 0 <= a * M ∧ a * M <= M)%Q
      as (HaM1 & HaM2 & HaM3 & HaM4) by (repeat split; nra).
    assert (Qabs (b * value t) <= (1 + eps) * ((1 - a) * M))%Q as Hbt.
    { apply Qabs_le_iff.
      assert (b * M <= (1 + eps) * ((1 - a) * M))%Q by nra. split; nra. }
    assert (Qabs (a * value c) <= a * M)%Q as Hac
      by (apply Qabs_le_iff; split; nra).
    assert (is_finite (beta * t) = true) as Hfp'.
    { apply Hfp. assert ((1 + eps) * ((1 - a) * M) < 2 ^ 1022)%Q by nra. lra. }
    assert (is_finite (alpha * c) = true) as Hfq' by (apply Hfq; lra).
    specialize (Hp Hfp'). specialize (Hq Hfq').
    apply (proj2 (add_error _ _ Hfp' Hfq')).
    set (p := value (beta * t)) in *. set (q := value (alpha * c)) in *.
    assert (Qabs (p + q) <= (3 # 2) * M + 2)%Q as Hpq.
    { assert (Qabs (p - b * value t)
              <= eps * ((1 + eps) * ((1 - a) * M)) + eta)%Q as Hp' by nra.
      assert (Qabs (q - a * value c) <= eps * (a * M) + eta)%Q as Hq' by nra.
      apply Qabs_le_iff in Hbt, Hac, Hp', Hq'. apply Qabs_le_iff.
      pose proof (Qscale_le eps (1 # 1024) ((1 - a) * M) Hu2 HaM1).
      pose proof (Qscale_le eps 1 (eps * ((1 - a) * M))
                    ltac:(lra) ltac:(clear - Hu HaM1; nra)).
      pose proof (Qscale_le eps (1 # 1024) (a * M) Hu2 HaM3).
      split; lra. }
    lra.
Qed.

(** C9, amended.  With [smoothing = 0], a finite [currentRate] and a
    target rate [T] that is a number, the smoothing step returns [T], and
    after one [updateRate] tick [currentRate] equals [T] when
    [minRate <= T <= maxRate]; when [T] lies outside that interval (and
    [minRate <= maxRate]) the clamp replaces it, so that [currentRate] is in
    the interval and differs from [T].  Equality is that of [===].
    Whatever the smoothing, the tick stores the smoothed value of the old
    [currentRate] and [T], clamped.
    For every [smoothing] in [0, 0.95) and all finite rates [c] and [t],
    the smoothed value, when it is finite, lies between [c] and [t] up to
    the rounding of its three operations: it is below neither of them, and
    above neither of them, by more than [2^-50 * max(|c|, |t|) + 2^-1073];
    and it is finite when [c] and [t] are at most [2^1021] in magnitude.
    The bounds are on the exact values of the numbers. *)
Theorem smoothing_tick calc s a :
  let T := nextTargetRate s (motionMagnitude s calc) in
  let s' := (updateRate calc s a).1 in
  ((smoothing s =? 0)%float = true →
   is_finite (currentRate s) = true →
   is_nan T = false →
   (applySmoothingToRate s (currentRate s) T =? T)%float = true ∧
   targetRate s' = T ∧
   (within (minRate s) (maxRate s) T = true →
      (currentRate s' =? T)%float = true) ∧
   ((minRate s <=? maxRate s)%float = true →
    within (minRate s) (maxRate s) T = false →
      within (minRate s) (maxRate s) (currentRate s') = true ∧
      (currentRate s' =? T)%float = false)) ∧
  currentRate s'
    = Math_max (minRate s)
        (Math_min (maxRate s) (applySmoothingToRate s (currentRate s) T)) ∧
  (is_finite (smoothing s) = true →
   (0 <= value (smoothing s))%Q → (value (smoothing s) < 95 # 100)%Q →
   ∀ c t : float,
     is_finite c = true → is_finite t = true →
     (is_finite (applySmoothingToRate s c t) = true →
      (Qmin (value c) (value t) - tolerance c t
       <= value (applySmoothingToRate s c t))%Q ∧
      (value (applySmoothingToRate s c t)
       <= Qmax (value c) (value t) + tolerance c t)%Q) ∧
     ((Qabs (value c) <= 2 ^ 1021)%Q → (Qabs (value t) <= 2 ^ 1021)%Q →
      is_finite (applySmoothingToRate s c t) = true)).
Proof.
  intros T s'. split; [|split; [done|]].
  - intros Hs Hc HT. subst s'. rewrite updateRate_fields. simpl. fold T.
    set (x := applySmoothingToRate s (currentRate s) T).
    assert ((x =? T)%float = true) as Hx.
    { subst x. unfold applySmoothingToRate.
      rewrite (sub_zero_r _ Hs), mul_one_l.
      destruct (zero_mul_finite _ _ Hs Hc) as [sz Hz].
      by apply (add_zero_r _ _ sz). }
    assert (is_nan x = false) as Hxn.
    { apply eqb_cmp in Hx. apply is_nan_false. intros E. by rewrite E in Hx. }
    split; [done|]. split; [done|]. split.
    + intros Hin. apply (eqb_trans _ x); [|done]. apply clamp_inside.
      unfold within in *.
      by rewrite (eqb_leb_r _ _ _ Hx), (eqb_leb_l _ _ _ Hx).
    + intros Hlohi Hout.
      pose proof (clamp_within _ _ x Hlohi Hxn) as Hr. split; [done|].
      destruct (Math_max _ _ =? T)%float eqn:E; [|done].
      unfold within in *.
      by rewrite (eqb_leb_r _ _ _ E), (eqb_leb_l _ _ _ E), Hout in Hr.
  - intros Hfa Ha0 Ha1 c t Hfc Hft.
    apply applySmoothingToRate_between; try done.
    apply Qlt_le_weak. eapply Qlt_trans; [exact Ha1|]. reflexivity.
Qed.

End Facts.

Local Existing Instance Float32_binary64.
Import Examples.
Import AccelerationToRate.

Lemma updateRate_targetRate_witness :
  (Num.geb 0.05 (motionThreshold defaults) = true ∧
   targetRate (updateRate (Motion 0.05 0) defaults idle_engine).1
     = (1.0 * (1 + 0.05 * 2.0))%float) ∧
  ((0.01 <? motionThreshold defaults)%float = true ∧
   targetRate (updateRate (Motion 0.01 0) defaults idle_engine).1 = 1.0%float).
Proof.
  assert (Num.geb 0.05 (motionThreshold defaults) = true) as H1 by reflexivity.
  assert ((0.01 <? motionThreshold defaults)%float = true) as H2 by reflexivity.
  split; split; [exact H1 | | exact H2 | ].
  - exact (proj1 (updateRate_targetRate (Motion 0.05 0) defaults idle_engine) H1).
  - exact (proj2 (updateRate_targetRate (Motion 0.01 0) defaults idle_engine) H2).
Defined.

(** C5 as stated fails: a motion magnitude that is NaN is not below the
    threshold, the target and the smoothed rate become NaN, [Math.min] and
    [Math.max] pass NaN on, and NaN is written to the engine. *)
Lemma updateRate_rate_nan :
  (minRate defaults <=? maxRate defaults)%float = true ∧
  RateSpec.within (minRate defaults) (maxRate defaults)
    (AudioController.rate (updateRate (Motion nan 0) defaults idle_engine).2)
  = false.
Proof. split; reflexivity. Qed.

Lemma updateRate_rate_clamped_witness :
  (minRate defaults <=? maxRate defaults)%float = true ∧
  RateSpec.within (minRate defaults) (maxRate defaults)
    (AudioController.rate (updateRate (Motion 5 0) defaults idle_engine).2)
  = true ∧
  AudioController.rate (updateRate (Motion nan 0) defaults idle_engine).2 = nan.
Proof.
  assert ((minRate defaults <=? maxRate defaults)%float = true) as H by reflexivity.
  split; [exact H|]. split.
  - exact (proj1 (updateRate_rate_clamped (Motion 5 0) defaults idle_engine H)
             eq_refl).
  - exact (proj2 (updateRate_rate_clamped (Motion nan 0) defaults idle_engine H)
             eq_refl).
Defined.

(** C9 as stated fails twice.  With smoothing 0 and a motion of 5 the target
    rate is 11, and the clamp leaves [currentRate] at 3.  With smoothing 0.3
    the rate 1 moves past the target just below 1 by a rounding error. *)
Lemma smoothing_counterexample :
  (targetRate (updateRate (Motion 5 0) instant idle_engine).1 = 11%float ∧
   currentRate (updateRate (Motion 5 0) instant idle_engine).1 = 3%float) ∧
  (targetRate (updateRate (Motion 0 0) settling idle_engine).1
     = 0x1.fffffffffffffp-1%float ∧
   currentRate (updateRate (Motion 0 0) settling idle_engine).1
     = 0x1.ffffffffffffep-1%float ∧
   (0x1.ffffffffffffep-1 <? 0x1.fffffffffffffp-1)%float = true ∧
   (0x1.fffffffffffffp-1 <? currentRate settling)%float = true).
Proof. repeat split; reflexivity. Qed.

Lemma smoothing_tick_witness :
  ((smoothing instant =? 0)%float = true ∧
   is_finite (currentRate instant) = true ∧
   RateSpec.within (minRate instant) (maxRate instant) 2 = true ∧
   (currentRate (updateRate (Motion 0.5 0) instant idle_engine).1 =? 2)%float = true) ∧
  (RateSpec.within (minRate instant) (maxRate instant) 11 = false ∧
   (currentRate (updateRate (Motion 5 0) instant idle_engine).1 =? 11)%float = false) ∧
  (is_finite (smoothing settling) = true ∧
   (0 <= NumSpec.value (smoothing settling))%Q ∧
   (NumSpec.value (smoothing settling) < 95 # 100)%Q ∧
   is_finite (currentRate settling) = true ∧
   is_finite (baseRate settling) = true ∧
   is_finite (applySmoothingToRate settling (currentRate settling)
                (baseRate settling)) = true ∧
   (Qabs (NumSpec.value (currentRate settling)) <= 2 ^ 1021)%Q ∧
   (Qabs (NumSpec.value (baseRate settling)) <= 2 ^ 1021)%Q ∧
   (Qmin (NumSpec.value (currentRate settling))
         (NumSpec.value (baseRate settling))
    - RateSpec.tolerance (currentRate settling) (baseRate settling)
    <= NumSpec.value
         (applySmoothingToRate settling (currentRate settling)
            (baseRate settling)))%Q).
Proof.
  assert ((smoothing instant =? 0)%float = true) as H1 by reflexivity.
  assert (is_finite (currentRate instant) = true) as H2 by reflexivity.
  assert (is_finite (smoothing settling) = true) as H3 by reflexivity.
  assert (0 <= NumSpec.value (smoothing settling))%Q as H4
    by (vm_compute; discriminate).
  assert (NumSpec.value (smoothing settling) < 95 # 100)%Q as H5
    by (vm_compute; reflexivity).
  assert (is_finite (currentRate settling) = true) as H6 by reflexivity.
  assert (is_finite (baseRate settling) = true) as H7 by reflexivity.
  assert (Qabs (NumSpec.value (currentRate settling)) <= 2 ^ 1021)%Q as H8
    by (vm_compute; discriminate).
  assert (Qabs (NumSpec.value (baseRate settling)) <= 2 ^ 1021)%Q as H9
    by (vm_compute; discriminate).
  split; [|split].
  - destruct (proj1 (smoothing_tick (Motion 0.5 0) instant idle_engine)
                H1 H2 eq_refl) as (_ & _ & Hin & _).
    split; [exact H1|]. split; [exact H2|]. split; [reflexivity|].
    exact (Hin eq_refl).
  - destruct (proj1 (smoothing_tick (Motion 5 0) instant idle_engine)
                H1 H2 eq_refl) as (_ & _ & _ & Hout).
    split; [reflexivity|]. exact (proj2 (Hout eq_refl eq_refl)).
  - destruct (proj2 (proj2 (smoothing_tick (Motion 0 0) settling idle_engine))
                H3 H4 H5 (currentRate settling) (baseRate settling)
                H6 H7) as (Hbound & Hfinite).
    pose proof (Hfinite H8 H9) as Hf.
    split; [exact H3|]. split; [exact H4|]. split; [exact H5|].
    split; [exact H6|]. split; [exact H7|]. split; [exact Hf|].
    split; [exact H8|]. split; [exact H9 | exact (proj1 (Hbound Hf))].
Defined.

End RateFacts.

(** ** More on the buffer *)

Module BufferLaws.
Section Laws.
Context {F : Float32}.
Import FloatArrayWrapper BufferSpec BufferFacts.

Implicit Types (b : t) (l : list f32).

Lemma tailCapacity_nonneg b : 0 ≤ tailCapacity b.
Proof.
  unfold tailCapacity.
  destruct (Z.eqb_spec (Z.rem (currentElementCount b) 4096) 0); zdiv.
Qed.

Lemma push_unfold b floatArray n :
  push b floatArray n =
    for_loop (Z.to_nat n) 0 (push_copy floatArray)
      (createAdditionalInnerArrays b (ceil_div (n - tailCapacity b) 4096)).
Proof. reflexivity. Qed.

Lemma push_nothing b floatArray n : n ≤ 0 → push b floatArray n = b.
Proof.
  intros Hn. rewrite push_unfold. pose proof (tailCapacity_nonneg b).
  unfold createAdditionalInnerArrays.
  replace (Z.to_nat n) with 0%nat by lia.
  replace (Z.to_nat (ceil_div (n - tailCapacity b) 4096)) with 0%nat
    by (unfold ceil_div; zdiv).
  reflexivity.
Qed.

Lemma push_holds_any b l floatArray n :
  holds b l → holds (push b floatArray n) (l ++ pushed floatArray n).
Proof.
  intros Hb. destruct (Z.le_gt_cases 0 n) as [Hn|Hn].
  - rewrite <- (Z2Nat.id n Hn). by apply push_holds.
  - rewrite push_nothing by lia. unfold pushed.
    rewrite seqZ_nil by lia. simpl. by rewrite app_nil_r.
Qed.

Lemma copy_loop_count floatArray n : ∀ c b,
  currentElementCount (for_loop n c (push_copy floatArray) b)
  = currentElementCount b + Z.of_nat n.
Proof.
  induction n as [|n IH]; intros c b; simpl for_loop; [lia|].
  rewrite IH. simpl. lia.
Qed.

Lemma copy_loop_empty floatArray n : ∀ c b,
  dataList b = [] →
  dataList (for_loop n c (push_copy floatArray) b) = [].
Proof.
  induction n as [|n IH]; intros c b Hb; simpl for_loop; [done|].
  apply IH. unfold push_copy, array_get. simpl. rewrite Hb.
  by destruct (_ <? 0).
Qed.

Lemma holds_chunks b l :
  holds b l →
  Z.of_nat (length (dataList b)) = ceil_div (Z.of_nat (length l)) 4096.
Proof.
  intros (pad & Hpad & Hs). pose proof (stores_capacity _ _ _ Hs).
  unfold ceil_div. zdiv.
Qed.

Lemma push_all_app calls more b :
  push_all (calls ++ more) b = push_all more (push_all calls b).
Proof. unfold push_all. by rewrite foldl_app. Qed.

Lemma stream_app calls more : stream (calls ++ more) = stream calls ++ stream more.
Proof. unfold stream. by rewrite bind_app. Qed.

Lemma getElement_holds b l i :
  holds b l →
  getElement b i = if i <? 0 then f32_zero else default f32_zero (l !! Z.to_nat i).
Proof.
  intros (pad & _ & Hs). destruct (Z.ltb_spec i 0) as [Hi|Hi].
  - unfold getElement, array_get, innerArraySize.
    by destruct (Z.ltb_spec (i / 4096) 0); [|zdiv].
  - by apply (getElement_stores _ _ pad).
Qed.

Lemma increasing_loop k : ∀ (j : nat) (arr : list f32),
  let arr' := for_loop k (Z.of_nat j)
                (λ i arr, TypedArray.set_number arr i (Num.of_Z i)) arr in
  length arr' = length arr ∧
  ∀ i : nat,
    arr' !! i =
      if decide ((j ≤ i < j + k)%nat ∧ (i < length arr)%nat)
      then Some (fround (Num.of_Z (Z.of_nat i)))
      else arr !! i.
Proof.
  induction k as [|k IH]; intros j arr.
  - simpl. split; [done|]. intros i. case_decide; [lia|done].
  - intros arr'. subst arr'. cbn [for_loop].
    replace (Z.of_nat j + 1) with (Z.of_nat (S j)) by lia.
    destruct (IH (S j) (TypedArray.set_number arr (Z.of_nat j)
                          (Num.of_Z (Z.of_nat j)))) as (Hl & Hi).
    assert (TypedArray.set_number arr (Z.of_nat j) (Num.of_Z (Z.of_nat j))
            = <[j := fround (Num.of_Z (Z.of_nat j))]> arr) as Hset.
    { unfold TypedArray.set_number, TypedArray.set.
      destruct (Z.ltb_spec (Z.of_nat j) 0); [lia|]. by rewrite Nat2Z.id. }
    rewrite Hset in Hl, Hi. rewrite Hset. rewrite length_insert in Hl, Hi.
    split; [done|]. intros i. rewrite Hi.
    destruct (decide (i = j)) as [->|Hne].
    + case_decide; [lia|]. case_decide.
      * by rewrite list_lookup_insert_eq by lia.
      * by rewrite list_insert_ge by lia.
    + rewrite list_lookup_insert_ne by done.
      case_decide; case_decide; try lia; done.
Qed.

(** X1.  After any run of pushes on a fresh buffer the chunk list holds
    exactly [ceil(N / 4096)] chunks for the [N] samples pushed, no chunk more,
    and every chunk has 4096 elements. *)
Theorem pushes_allocate_what_is_needed calls :
  let b := push_all calls new in
  Z.of_nat (length (dataList b)) = ceil_div (Z.of_nat (total calls)) 4096 ∧
  (∀ k, ceil_div (Z.of_nat (total calls)) 4096 ≤ k
        ↔ Z.of_nat (total calls) ≤ 4096 * k) ∧
  Forall (λ chunk, length chunk = 4096%nat) (dataList b).
Proof.
  intros b. subst b. pose proof (pushes_hold calls) as Hb.
  split; [|split].
  - rewrite (holds_chunks _ _ Hb). by rewrite length_stream.
  - intros k. apply ceil_div_spec.
  - by destruct Hb as (pad & _ & Hwc & _).
Qed.

(** X2.  For a buffer built by pushes of [N] samples in all,
    [getSizeInBytes] is [4 * N] (and so 0 for an empty buffer). *)
Theorem getSizeInBytes_pushes calls :
  getSizeInBytes (push_all calls new) = 4 * Z.of_nat (total calls).
Proof.
  pose proof (pushes_hold calls) as Hb.
  pose proof (holds_chunks _ _ Hb) as Hn. rewrite length_stream in Hn.
  destruct Hb as (pad & _ & _ & Hcount & _). rewrite length_stream in Hcount.
  unfold getSizeInBytes, array_get. simpl. rewrite Hcount.
  destruct (dataList (push_all calls new)) as [|chunk rest]; simpl in *; [|lia].
  unfold ceil_div in Hn. zdiv.
Qed.

(** X3.  Pushing more samples never changes what an index that was already
    written (or a negative index) reads. *)
Theorem push_keeps_earlier_reads calls more i :
  i < Z.of_nat (total calls) →
  getElement (push_all (calls ++ more) new) i
  = getElement (push_all calls new) i.
Proof.
  intros Hi.
  rewrite (getElement_holds _ _ i (pushes_hold (calls ++ more))).
  rewrite (getElement_holds _ _ i (pushes_hold calls)).
  destruct (Z.ltb_spec i 0); [done|].
  rewrite stream_app, lookup_app_l; [done|]. rewrite length_stream. lia.
Qed.

(** X4.  A push with a count that is zero or negative changes nothing:
    no chunk is added, no sample is copied and the count stays. *)
Theorem push_nonpositive_count b floatArray n :
  n ≤ 0 → push b floatArray n = b.
Proof. apply push_nothing. Qed.

(** X5.  A push whose count exceeds the length of its array stores NaN at
    the positions the array does not cover. *)
Theorem push_beyond_array_stores_nan calls floatArray (n i : nat) :
  (length floatArray ≤ i < n)%nat →
  getElement (push (push_all calls new) floatArray (Z.of_nat n))
    (Z.of_nat (total calls + i)) = f32_nan.
Proof.
  intros Hi.
  rewrite (getElement_holds _ (stream calls ++ pushed floatArray (Z.of_nat n)))
    by apply push_holds, pushes_hold.
  destruct (Z.ltb_spec (Z.of_nat (total calls + i)) 0); [lia|].
  rewrite Nat2Z.id, lookup_app_r, length_stream by (rewrite length_stream; lia).
  replace (total calls + i - total calls)%nat with i by lia.
  unfold pushed. rewrite list_lookup_fmap, lookup_seqZ_lt by lia. simpl.
  unfold TypedArray.get_or_nan, TypedArray.get.
  destruct (Z.ltb_spec (0 + Z.of_nat i) 0); [done|].
  rewrite lookup_ge_None_2; [done|]. lia.
Qed.

(** X6.  [shift] leaves the count as it is, so after it has removed a chunk
    every index that is not negative reads what stood 4096 positions
    later. *)
Theorem shift_moves_reads b chunk rest i :
  dataList b = chunk :: rest → 0 ≤ i →
  getElement (shift b).2 i = getElement b (i + 4096).
Proof.
  intros Hb Hi. unfold shift, getElement, array_get, innerArraySize.
  rewrite Hb. simpl.
  replace ((i + 4096) / 4096) with (i / 4096 + 1) by zdiv.
  replace (Z.rem (i + 4096) 4096) with (Z.rem i 4096) by zdiv.
  destruct (Z.ltb_spec (i / 4096) 0); [zdiv|].
  destruct (Z.ltb_spec (i / 4096 + 1) 0); [lia|].
  replace (Z.to_nat (i / 4096 + 1)) with (S (Z.to_nat (i / 4096))) by lia.
  done.
Qed.

(** X7.  When the chunk list is empty but the count still leaves room in
    the last chunk it once had (as after [shift] has removed it), a push that
    fits that room allocates nothing and stores nothing: the count grows and
    every index reads 0. *)
Theorem push_into_removed_chunk b floatArray n :
  dataList b = [] → n ≤ tailCapacity b →
  dataList (push b floatArray n) = [] ∧
  getSize (push b floatArray n) = getSize b + Z.max 0 n ∧
  ∀ i, getElement (push b floatArray n) i = f32_zero.
Proof.
  intros Hb Hn. rewrite push_unfold.
  assert (createAdditionalInnerArrays b (ceil_div (n - tailCapacity b) 4096) = b)
    as ->.
  { unfold createAdditionalInnerArrays.
    replace (Z.to_nat (ceil_div (n - tailCapacity b) 4096)) with 0%nat
      by (unfold ceil_div; zdiv).
    reflexivity. }
  pose proof (copy_loop_empty floatArray (Z.to_nat n) 0 b Hb) as He.
  split; [done|]. split.
  - unfold getSize. rewrite copy_loop_count. lia.
  - intros i. unfold getElement, array_get. rewrite He.
    by destruct (_ <? 0).
Qed.

(** X8.  [clear] restores a fresh buffer from any state, also one that
    [shift] has put out of step: pushes after a [clear] give the size and
    the reads they give on a new buffer, silence outside the pushed range. *)
Theorem clear_then_pushes b calls i :
  getSize (push_all calls (clear b)) = Z.of_nat (total calls) ∧
  getElement (push_all calls (clear b)) i
  = if i <? 0 then f32_zero
    else default f32_zero (stream calls !! Z.to_nat i).
Proof.
  change (clear b) with new. split.
  - destruct (pushes_hold calls) as (pad & _ & _ & Hc & _).
    unfold getSize. by rewrite Hc, length_stream.
  - apply getElement_holds, pushes_hold.
Qed.

(** X9.  [getFloatArrayWithIncreasingSequence(n)] is an array of [n]
    elements whose element [i] is the number [i] as the array stores it, and
    after it has been pushed on a fresh buffer [getElement(i)] is that
    element. *)
Theorem increasing_sequence_elements (n : nat) :
  let arr := getFloatArrayWithIncreasingSequence (Z.of_nat n) in
  length arr = n ∧
  ∀ i : nat, (i < n)%nat →
    arr !! i = Some (fround (Num.of_Z (Z.of_nat i))) ∧
    getElement (push new arr (Z.of_nat n)) (Z.of_nat i)
    = fround (Num.of_Z (Z.of_nat i)).
Proof.
  intros arr. subst arr. unfold getFloatArrayWithIncreasingSequence.
  rewrite Nat2Z.id.
  destruct (increasing_loop n 0 (TypedArray.make (Z.of_nat n))) as (Hl & Hi).
  change (Z.of_nat 0) with 0 in *.
  assert (length (TypedArray.make (Z.of_nat n)) = n) as Hmake
    by (unfold TypedArray.make; rewrite length_replicate; lia).
  rewrite Hmake in Hl, Hi.
  split; [done|]. intros i Hin.
  assert (for_loop n 0 (λ i arr, TypedArray.set_number arr i (Num.of_Z i))
            (TypedArray.make (Z.of_nat n)) !! i
          = Some (fround (Num.of_Z (Z.of_nat i)))) as Hx.
  { rewrite Hi. case_decide; [done|lia]. }
  split; [done|].
  rewrite (getElement_holds _ ([] ++ pushed _ (Z.of_nat n)))
    by apply push_holds, new_holds.
  destruct (Z.ltb_spec (Z.of_nat i) 0); [lia|].
  rewrite Nat2Z.id. simpl. rewrite pushed_take by lia.
  rewrite lookup_take_lt by lia. by rewrite Hx.
Qed.

End Laws.

Local Existing Instance Float32_binary64.
Import Examples Scenarios FloatArrayWrapper BufferSpec.

Lemma push_keeps_earlier_reads_witness :
  2 < Z.of_nat (total two_calls) ∧
  getElement (push_all (two_calls ++ [([5%float], 1%nat)]) new) 2
  = getElement (push_all two_calls new) 2.
Proof.
  assert (2 < Z.of_nat (total two_calls)) as H by (vm_compute; reflexivity).
  split; [exact H|].
  exact (push_keeps_earlier_reads two_calls [([5%float], 1%nat)] 2 H).
Defined.

Lemma push_nonpositive_count_witness :
  -1 ≤ 0 ∧ push three_samples [1; 2]%float (-1) = three_samples.
Proof.
  assert (-1 ≤ 0) as H by lia.
  split; [exact H|]. exact (push_nonpositive_count three_samples _ (-1) H).
Defined.

Lemma push_beyond_array_stores_nan_witness :
  (length [1%float] ≤ 1 < 3)%nat ∧
  getElement (push (push_all two_calls new) [1%float] 3)
    (Z.of_nat (total two_calls + 1)) = nan.
Proof.
  assert (length [1%float] ≤ 1 < 3)%nat as H by (simpl; lia).
  split; [exact H|].
  exact (push_beyond_array_stores_nan two_calls [1%float] 3 1 H).
Defined.

Lemma shift_moves_reads_witness :
  ∃ chunk rest,
    dataList (push_all two_calls new) = chunk :: rest ∧ 0 ≤ 0 ∧
    getElement (shift (push_all two_calls new)).2 0
    = getElement (push_all two_calls new) (0 + 4096).
Proof.
  assert (∃ chunk rest, dataList (push_all two_calls new) = chunk :: rest)
    as (chunk & rest & E) by (eexists _, _; vm_compute; reflexivity).
  assert (0 ≤ 0) as H by lia.
  exists chunk, rest. split; [exact E|]. split; [exact H|].
  exact (shift_moves_reads (push_all two_calls new) chunk rest 0 E H).
Defined.

Lemma push_into_removed_chunk_witness :
  dataList (shift three_samples).2 = [] ∧
  2 ≤ tailCapacity (shift three_samples).2 ∧
  getSize (push (shift three_samples).2 [8; 9]%float 2) = 3 + Z.max 0 2 ∧
  getElement (push (shift three_samples).2 [8; 9]%float 2) 3 = 0%float.
Proof.
  assert (dataList (shift three_samples).2 = []) as H1 by (vm_compute; reflexivity).
  assert (2 ≤ tailCapacity (shift three_samples).2) as H2
    by (vm_compute; discriminate).
  destruct (push_into_removed_chunk (shift three_samples).2 [8; 9]%float 2 H1 H2)
    as (_ & Hsize & Hread).
  split; [exact H1|]. split; [exact H2|]. split; [exact Hsize | exact (Hread 3)].
Defined.

Lemma increasing_sequence_elements_witness :
  (2 < 3)%nat ∧
  getFloatArrayWithIncreasingSequence 3 !! 2%nat = Some (fround (Num.of_Z 2)) ∧
  getElement (push new (getFloatArrayWithIncreasingSequence 3) 3) 2
  = fround (Num.of_Z 2).
Proof.
  assert (2 < 3)%nat as H by lia.
  split; [exact H|].
  exact (proj2 (increasing_sequence_elements 3) 2%nat H).
Defined.

End BufferLaws.

(** ** More on the playback engine *)

Module EngineLaws.
Section Laws.
Context {F : Float32}.
Import AudioController EngineSpec LoadSpec BufferSpec BufferFacts BufferLaws EngineFacts.

Implicit Types (s : t) (data : FloatArrayWrapper.t) (fr : list f32).

(** [play] with a track on deck, for any size the host reports. *)
Lemma play_on_deck size s frame0 data :
  resultFrame s = Some frame0 →
  trackOnDeck s = true →
  audioData s = Some data →
  let n := Z.to_nat size in
  let final := phase_after (rate s) (phase s) n in
  ∃ frame',
    play size s =
      ({| rate := rate s; volume := volume s; audioData := Some data;
          resultFrame := Some frame';
          phase := if wraps data (rate s) final then 0%float else final;
          trackOnDeck := true |},
       [Enqueue frame' size]) ∧
    length frame' = length frame0 ∧
    ∀ i : nat,
      frame' !! i =
        if decide ((i < n)%nat ∧ (i < length frame0)%nat)
        then Some (sample_at data (rate s) (volume s) (phase s) i)
        else frame0 !! i.
Proof.
  intros Hf Hd Ha n final.
  destruct (play_loop data (rate s) (volume s) n 0 (phase s) frame0)
    as (Hp & Hl & Hi).
  eexists. split; [|split; [exact Hl|]].
  - unfold play. rewrite Hf, Hd, Ha. simpl. fold n.
    change (Z.of_nat 0) with 0 in Hp. rewrite Hp. fold final. reflexivity.
  - intros i. rewrite Hi. rewrite Nat.sub_0_r.
    case_decide; case_decide; try lia; done.
Qed.

Lemma phase_after_add rate phase (n k : nat) :
  phase_after rate (phase_after rate phase n) k = phase_after rate phase (k + n).
Proof. unfold phase_after. by rewrite Nat.iter_add. Qed.

Lemma sample_at_add data rate volume phase (n i : nat) :
  sample_at data rate volume (phase_after rate phase n) i
  = sample_at data rate volume phase (n + i).
Proof.
  unfold sample_at. rewrite phase_after_add.
  by replace (S i + n)%nat with (S (n + i)) by lia.
Qed.

(** Adding a zero does not change what a phase rounds to. *)
Lemma Math_round_add_zero (p z : float) :
  (z =? 0)%float = true → Num.Math_round (p + z) = Num.Math_round p.
Proof.
  intros [sz Hz]%ArithFacts.eqb_zero_spec. unfold Num.Math_round.
  rewrite add_spec, Hz.
  destruct (Prim2SF p) as [sp|sp| |sp m e]; try done.
  simpl. by destruct sp, sz.
Qed.

Lemma Math_round_frozen (rate phase : float) (k : nat) :
  (rate =? 0)%float = true →
  Num.Math_round (phase_after rate phase k) = Num.Math_round phase.
Proof.
  intros Hr. induction k as [|k IH]; [done|].
  unfold phase_after in *. simpl. by rewrite Math_round_add_zero.
Qed.

Lemma loadTracks_pull_holds source : ∀ b l,
  holds b l → holds (loadTracks_pull source b) (l ++ delivered source).
Proof.
  induction source as [|p source IH]; intros b l Hb; simpl.
  - by rewrite app_nil_r.
  - destruct (pulled_x p =? 0); [by rewrite app_nil_r|].
    rewrite app_assoc. apply IH. by apply push_holds_any.
Qed.

Lemma getElementAt_holds data l index :
  holds data l → getElementAt data index = stream_read l index.
Proof.
  intros Hd. destruct index as [k|]; [|done]. simpl.
  by apply getElement_holds.
Qed.

Lemma loadTracks_pull_buffer tr :
  buffer_of tr (loadTracks_pull (pulls tr) FloatArrayWrapper.new).
Proof.
  pose proof (loadTracks_pull_holds (pulls tr) _ _ new_holds) as Hh.
  simpl in Hh. split.
  - unfold FloatArrayWrapper.getSize. by destruct Hh as (pad & _ & _ & -> & _).
  - intros i. by apply (getElementAt_holds _ _ (Some i)).
Qed.

Lemma alloc_loadable fits tr :
  loadable fits tr →
  TypedArray.alloc fits (maxFrameSize tr)
  = Some (TypedArray.make (maxFrameSize tr)).
Proof.
  intros [Hm Hf]. unfold TypedArray.alloc. rewrite Hf.
  by destruct (Z.ltb_spec (maxFrameSize tr) 0); [lia|].
Qed.

Lemma alloc_not_loadable fits tr :
  ¬ loadable fits tr → TypedArray.alloc fits (maxFrameSize tr) = None.
Proof.
  intros Hn. unfold TypedArray.alloc.
  destruct (Z.ltb_spec (maxFrameSize tr) 0); [done|].
  destruct (fits (maxFrameSize tr)) eqn:Hf; [|done].
  destruct Hn. by split.
Qed.

Lemma loadTracks_from_returns fits inputTrack : ∀ audioArrays,
  Forall (loadable fits) inputTrack →
  loadTracks_from fits inputTrack audioArrays
  = Returned (audioArrays
              ++ ((λ tr, loadTracks_pull (pulls tr) FloatArrayWrapper.new)
                    <$> inputTrack)).
Proof.
  induction inputTrack as [|tr rest IH]; intros acc Hall; simpl.
  - by rewrite app_nil_r.
  - inversion Hall as [|? ? Htr Hrest]; subst.
    rewrite (alloc_loadable _ _ Htr), (IH _ Hrest). by rewrite <- app_assoc.
Qed.

Lemma loadTracks_from_throws fits good bad rest : ∀ audioArrays,
  Forall (loadable fits) good → ¬ loadable fits bad →
  loadTracks_from fits (good ++ bad :: rest) audioArrays
  = RangeError (audioArrays
                ++ ((λ tr, loadTracks_pull (pulls tr) FloatArrayWrapper.new)
                      <$> good)).
Proof.
  induction good as [|tr good IH]; intros acc Hall Hbad; simpl.
  - rewrite (alloc_not_loadable _ _ Hbad). by rewrite app_nil_r.
  - inversion Hall as [|? ? Htr Hgood]; subst.
    rewrite (alloc_loadable _ _ Htr), (IH _ Hgood Hbad).
    by rewrite <- app_assoc.
Qed.

Lemma setTrack_returns fits audioArrays tr s :
  loadable fits tr →
  setTrack fits audioArrays (maxFrameSize tr) s
  = Returned {| rate := rate s; volume := volume s;
                audioData := audioArrays !! 0%nat;
                resultFrame := Some (TypedArray.make (maxFrameSize tr));
                phase := 0%float; trackOnDeck := true |}.
Proof. intros Htr. unfold setTrack. by rewrite (alloc_loadable _ _ Htr). Qed.

(** X10.  [loadTracks] allocates the frame of each track before it reads
    the source.  When the frame of every track can be allocated (no
    [maxFrameSize] is negative or beyond what the host allocates) it returns
    with one buffer per input track, in the order of the tracks, and the
    buffer of a track holds every sample its source delivered before it
    first answered [x = 0], in order: [getSize] is their number,
    [getElement(i)] is sample [i], and 0 outside them.  At the first track
    whose frame cannot be allocated it throws a [RangeError], leaving the
    buffers of the tracks before that one and none for the others. *)
Theorem loadTracks_stores_sources fits inputTrack :
  (Forall (loadable fits) inputTrack →
   ∃ audioArrays,
     loadTracks fits inputTrack = Returned audioArrays ∧
     length audioArrays = length inputTrack ∧
     ∀ (k : nat) tr, inputTrack !! k = Some tr →
       ∃ data, audioArrays !! k = Some data ∧ buffer_of tr data) ∧
  (∀ good bad rest,
     inputTrack = good ++ bad :: rest →
     Forall (loadable fits) good → ¬ loadable fits bad →
     ∃ audioArrays,
       loadTracks fits inputTrack = RangeError audioArrays ∧
       length audioArrays = length good ∧
       ∀ (k : nat) tr, good !! k = Some tr →
         ∃ data, audioArrays !! k = Some data ∧ buffer_of tr data).
Proof.
  unfold loadTracks. split.
  - intros Hall. eexists. split; [by apply loadTracks_from_returns|].
    simpl. split; [by rewrite length_fmap|].
    intros k tr Hk. eexists. split; [by rewrite list_lookup_fmap, Hk|].
    apply loadTracks_pull_buffer.
  - intros good bad rest -> Hall Hbad.
    eexists. split; [by apply loadTracks_from_throws|].
    simpl. split; [by rewrite length_fmap|].
    intros k tr Hk. eexists. split; [by rewrite list_lookup_fmap, Hk|].
    apply loadTracks_pull_buffer.
Qed.

(** X11.  When the frame of every input track can be allocated and there
    is at least one track, [onAwake] returns, and [play] is then never
    skipped and plays the first track, whatever follows it: it hands one
    frame of [maxFrameSize] elements to the sink, and slot [i] of it holds
    the sample of the first track's stream at the rounded phase after
    [i + 1] additions of [rate] to 0 (so the first slot reads index
    [round(rate)], not index 0), times [volume], silence outside the
    stream.  When the frame of some track cannot be allocated (its
    [maxFrameSize] is negative or beyond what the host allocates),
    [onAwake] throws a [RangeError] while it loads the tracks, before it
    puts a track on deck: the engine is as it was, and the statements that
    bind [play] are not reached. *)
Theorem onAwake_then_play fits first rest s (n : nat) :
  let l := delivered (pulls first) in
  (Forall (loadable fits) (first :: rest) →
   ∃ audioArrays st frame',
     onAwake fits (first :: rest) s = Returned (audioArrays, st) ∧
     (play (Z.of_nat n) st).2 = [Enqueue frame' (Z.of_nat n)] ∧
     length frame' = Z.to_nat (maxFrameSize first) ∧
     ∀ i : nat, (i < n)%nat → (i < Z.to_nat (maxFrameSize first))%nat →
       frame' !! i =
         Some (fround
                 (f32_to_number
                    (stream_read l
                       (Num.Math_round (phase_after (rate s) 0 (S i))))
                  * volume s)%float)) ∧
  (∀ good bad rest',
     first :: rest = good ++ bad :: rest' →
     Forall (loadable fits) good → ¬ loadable fits bad →
     ∃ audioArrays,
       onAwake fits (first :: rest) s = RangeError (audioArrays, s) ∧
       length audioArrays = length good).
Proof.
  intros l. split.
  - intros Hall. unfold onAwake, loadTracks.
    rewrite (loadTracks_from_returns _ _ _ Hall).
    inversion Hall as [|? ? Hfirst _]; subst.
    rewrite (setTrack_returns _ _ _ _ Hfirst).
    set (data := loadTracks_pull (pulls first) FloatArrayWrapper.new).
    assert (holds data l) as Hd
      by apply (loadTracks_pull_holds (pulls first) _ _ new_holds).
    match goal with |- context [Returned (?a, ?st)] =>
      exists a, st;
      destruct (play_on_deck (Z.of_nat n) st
                  (TypedArray.make (maxFrameSize first)) data
                  eq_refl eq_refl eq_refl) as (frame' & Hplay & Hl & Hi)
    end.
    exists frame'. split; [done|]. rewrite Hplay. split; [done|].
    assert (length (TypedArray.make (maxFrameSize first))
            = Z.to_nat (maxFrameSize first)) as Hmake
      by (unfold TypedArray.make; by rewrite length_replicate).
    rewrite Hmake in Hl, Hi. split; [done|].
    intros i Hin Him. rewrite Hi, Nat2Z.id. case_decide; [|lia].
    unfold sample_at. simpl. by rewrite (getElementAt_holds _ _ _ Hd).
  - intros good bad rest' Heq Hall Hbad. unfold onAwake, loadTracks.
    rewrite Heq, (loadTracks_from_throws _ _ _ _ _ Hall Hbad).
    eexists. split; [done|]. simpl. by rewrite length_fmap.
Qed.

(** X12.  With [rate] equal to 0 and a track on deck the playback is
    frozen: every slot [play] writes holds the sample at the rounded current
    phase times [volume], and the phase is reset to 0 afterwards. *)
Theorem play_frozen size s frame0 data :
  resultFrame s = Some frame0 →
  trackOnDeck s = true →
  audioData s = Some data →
  (rate s =? 0)%float = true →
  ∃ frame',
    (play size s).2 = [Enqueue frame' size] ∧
    resultFrame (play size s).1 = Some frame' ∧
    phase (play size s).1 = 0%float ∧
    ∀ i : nat, (i < Z.to_nat size)%nat → (i < length frame0)%nat →
      frame' !! i =
        Some (fround (f32_to_number
                        (getElementAt data (Num.Math_round (phase s)))
                      * volume s)%float).
Proof.
  intros Hf Hd Ha Hr.
  destruct (play_on_deck size s frame0 data Hf Hd Ha) as (frame' & Hplay & _ & Hi).
  exists frame'. rewrite Hplay. simpl. split; [done|]. split; [done|]. split.
  - unfold wraps. by rewrite Hr, orb_true_r.
  - intros i Hin Hil. rewrite Hi. case_decide; [|lia].
    unfold sample_at. by rewrite Math_round_frozen.
Qed.

(** X13.  Frames follow one another: when the phase is not reset after a
    frame of [n] samples, slot [i] of the next frame holds sample [n + i] of
    the run that started with the first frame, and the phase after both
    frames is that after [n + m] additions, reset if it has reached the
    end. *)
Theorem play_next_frame (n m : nat) s frame0 data :
  resultFrame s = Some frame0 →
  trackOnDeck s = true →
  audioData s = Some data →
  wraps data (rate s) (phase_after (rate s) (phase s) n) = false →
  let s1 := (play (Z.of_nat n) s).1 in
  let final := phase_after (rate s) (phase s) (n + m) in
  ∃ frame'',
    (play (Z.of_nat m) s1).2 = [Enqueue frame'' (Z.of_nat m)] ∧
    phase (play (Z.of_nat m) s1).1
      = (if wraps data (rate s) final then 0%float else final) ∧
    ∀ i : nat, (i < m)%nat → (i < length frame0)%nat →
      frame'' !! i = Some (sample_at data (rate s) (volume s) (phase s) (n + i)).
Proof.
  intros Hf Hd Ha Hw s1 final. subst s1.
  destruct (play_on_deck (Z.of_nat n) s frame0 data Hf Hd Ha)
    as (frame' & Hplay & Hl & _).
  rewrite Hplay. cbn [fst]. rewrite Nat2Z.id, Hw.
  destruct (play_on_deck (Z.of_nat m)
              {| rate := rate s; volume := volume s; audioData := Some data;
                 resultFrame := Some frame';
                 phase := phase_after (rate s) (phase s) n;
                 trackOnDeck := true |}
              frame' data eq_refl eq_refl eq_refl)
    as (frame'' & Hplay2 & _ & Hi).
  cbn [rate volume phase] in Hplay2, Hi.
  rewrite Nat2Z.id in Hplay2, Hi.
  rewrite phase_after_add in Hplay2.
  replace (m + n)%nat with (n + m)%nat in Hplay2 by lia.
  exists frame''. rewrite Hplay2. cbn [fst snd phase].
  split; [done|]. split; [done|].
  intros i Him Hil. rewrite Hi. case_decide; [|lia].
  by rewrite sample_at_add.
Qed.

(** X14.  A frame size that is zero or negative makes [play] run no loop
    step: with a track on deck the frame is handed to the sink as it is, with
    that size, and the phase is kept unless the reset test holds for it. *)
Theorem play_empty_frame size s frame0 data :
  resultFrame s = Some frame0 →
  trackOnDeck s = true →
  audioData s = Some data →
  size ≤ 0 →
  play size s =
    ({| rate := rate s; volume := volume s; audioData := Some data;
        resultFrame := Some frame0;
        phase := if wraps data (rate s) (phase s) then 0%float else phase s;
        trackOnDeck := true |},
     [Enqueue frame0 size]).
Proof.
  intros Hf Hd Ha Hs. unfold play. rewrite Hf, Hd, Ha.
  replace (Z.to_nat size) with 0%nat by lia. reflexivity.
Qed.

End Laws.

Local Existing Instance Float32_binary64.
Import Examples Scenarios AudioController.

Lemma loadTracks_stores_sources_witness :
  (Forall (LoadSpec.loadable host_fits) [short_track] ∧
   ∃ audioArrays data,
     loadTracks host_fits [short_track] = Returned audioArrays ∧
     audioArrays !! 0%nat = Some data ∧
     FloatArrayWrapper.getSize data = 6 ∧
     FloatArrayWrapper.getElement data 5 = 6%float) ∧
  ([short_track; broken_track; short_track]
     = [short_track] ++ broken_track :: [short_track] ∧
   Forall (LoadSpec.loadable host_fits) [short_track] ∧
   ¬ LoadSpec.loadable host_fits broken_track ∧
   ∃ audioArrays,
     loadTracks host_fits [short_track; broken_track; short_track]
       = RangeError audioArrays ∧
     length audioArrays = 1%nat).
Proof.
  assert (Forall (LoadSpec.loadable host_fits) [short_track]) as Hall.
  { repeat constructor. vm_compute. discriminate. }
  assert (¬ LoadSpec.loadable host_fits broken_track) as Hbad.
  { intros [Hneg _]. vm_compute in Hneg. apply Hneg. reflexivity. }
  split.
  - destruct (proj1 (loadTracks_stores_sources host_fits [short_track]) Hall)
      as (audioArrays & Hr & _ & Hk).
    destruct (Hk 0%nat short_track eq_refl) as (data & Hd & Hs & Hi).
    split; [exact Hall|].
    exists audioArrays, data. split; [exact Hr|]. split; [exact Hd|].
    split; [exact Hs | exact (Hi 5)].
  - destruct (proj2 (loadTracks_stores_sources host_fits
                       [short_track; broken_track; short_track])
                [short_track] broken_track [short_track] eq_refl Hall Hbad)
      as (audioArrays & Hr & Hl & _).
    split; [reflexivity|]. split; [exact Hall|]. split; [exact Hbad|].
    exists audioArrays. split; [exact Hr | exact Hl].
Defined.

Lemma onAwake_then_play_witness :
  (Forall (LoadSpec.loadable host_fits) [short_track] ∧
   ∃ audioArrays st frame',
     onAwake host_fits [short_track] fresh_engine = Returned (audioArrays, st) ∧
     (play 3 st).2 = [Enqueue frame' 3] ∧
     frame' !! 0%nat = Some 2%float ∧ frame' !! 2%nat = Some 4%float) ∧
  ([short_track; broken_track] = [short_track] ++ broken_track :: [] ∧
   Forall (LoadSpec.loadable host_fits) [short_track] ∧
   ¬ LoadSpec.loadable host_fits broken_track ∧
   ∃ audioArrays,
     onAwake host_fits [short_track; broken_track] fresh_engine
       = RangeError (audioArrays, fresh_engine)).
Proof.
  assert (Forall (LoadSpec.loadable host_fits) [short_track]) as Hall.
  { repeat constructor. vm_compute. discriminate. }
  assert (¬ LoadSpec.loadable host_fits broken_track) as Hbad.
  { intros [Hneg _]. vm_compute in Hneg. apply Hneg. reflexivity. }
  split.
  - destruct (proj1 (onAwake_then_play host_fits short_track [] fresh_engine 3)
                Hall)
      as (audioArrays & st & frame' & Hr & Hq & _ & Hi).
    split; [exact Hall|].
    exists audioArrays, st, frame'. split; [exact Hr|]. split; [exact Hq|].
    split.
    + refine (eq_trans (Hi 0%nat _ _) _); [vm_compute; lia..|].
      vm_compute. reflexivity.
    + refine (eq_trans (Hi 2%nat _ _) _); [vm_compute; lia..|].
      vm_compute. reflexivity.
  - destruct (proj2 (onAwake_then_play host_fits short_track [broken_track]
                       fresh_engine 0)
                [short_track] broken_track [] eq_refl Hall Hbad)
      as (audioArrays & Hr & _).
    split; [reflexivity|]. split; [exact Hall|]. split; [exact Hbad|].
    exists audioArrays. exact Hr.
Defined.

Lemma play_frozen_witness :
  (rate frozen_engine =? 0)%float = true ∧
  ∃ frame',
    (play 2 frozen_engine).2 = [Enqueue frame' 2] ∧
    phase (play 2 frozen_engine).1 = 0%float ∧
    frame' !! 0%nat = Some 40%float ∧ frame' !! 1%nat = Some 40%float.
Proof.
  assert ((rate frozen_engine =? 0)%float = true) as H by reflexivity.
  split; [exact H|].
  destruct (play_frozen 2 frozen_engine (TypedArray.make 4) three_samples
              eq_refl eq_refl eq_refl H) as (frame' & Hq & _ & Hp & Hi).
  exists frame'. split; [exact Hq|]. split; [exact Hp|]. split.
  - refine (eq_trans (Hi 0%nat _ _) _); [vm_compute; lia..|].
    vm_compute. reflexivity.
  - refine (eq_trans (Hi 1%nat _ _) _); [vm_compute; lia..|].
    vm_compute. reflexivity.
Defined.

Lemma play_next_frame_witness :
  EngineSpec.wraps (BufferSpec.push_all two_calls FloatArrayWrapper.new) 1
    (EngineSpec.phase_after 1 0 2) = false ∧
  ∃ frame'',
    (play 2 (play 2 forward_engine).1).2 = [Enqueue frame'' 2] ∧
    phase (play 2 (play 2 forward_engine).1).1 = 4%float ∧
    frame'' !! 0%nat = Some 7%float.
Proof.
  assert (EngineSpec.wraps (BufferSpec.push_all two_calls FloatArrayWrapper.new)
            (rate forward_engine)
            (EngineSpec.phase_after (rate forward_engine) (phase forward_engine) 2)
          = false) as H by (vm_compute; reflexivity).
  split; [exact H|].
  destruct (play_next_frame 2 2 forward_engine _ _ eq_refl eq_refl eq_refl H)
    as (frame'' & Hq & Hp & Hi).
  exists frame''. split; [exact Hq|]. split.
  - refine (eq_trans Hp _). vm_compute. reflexivity.
  - refine (eq_trans (Hi 0%nat _ _) _); [vm_compute; lia..|].
    vm_compute. reflexivity.
Defined.

Lemma play_empty_frame_witness :
  0 ≤ 0 ∧
  (play 0 frozen_engine).2 = [Enqueue (TypedArray.make 4) 0] ∧
  phase (play 0 frozen_engine).1 = 0%float.
Proof.
  assert (0 ≤ 0) as H by lia.
  split; [exact H|].
  pose proof (play_empty_frame 0 frozen_engine (TypedArray.make 4) three_samples
                eq_refl eq_refl eq_refl H) as Hplay.
  rewrite Hplay. split; reflexivity.
Defined.

End EngineLaws.

(** ** More on the rate controller *)

Module RateLaws.
Section Laws.
Context {F : Float32}.
Import Num NumFacts AccelerationToRate RateSpec RunSpec RateFacts.

Implicit Types (s : t) (calc : motion) (a : AudioController.t).

Lemma add_nan_r (x y : float) : is_nan y = true → is_nan (x + y) = true.
Proof.
  rewrite !is_nan_spec, add_spec. intros ->.
  by destruct (Prim2SF x) as [[]|[]| |].
Qed.

Lemma mul_nan_r (x y : float) : is_nan y = true → is_nan (x * y) = true.
Proof.
  rewrite !is_nan_spec, mul_spec. intros ->.
  by destruct (Prim2SF x) as [[]|[]| |].
Qed.

(** A tick from a rate that is NaN. *)
Lemma updateRate_nan calc s a :
  is_nan (currentRate s) = true →
  currentRate (updateRate calc s a).1 = nan ∧
  AudioController.rate (updateRate calc s a).2 = nan.
Proof.
  intros Hc. rewrite updateRate_fields. simpl.
  rewrite Math_min_nan, Math_max_nan; [done|].
  unfold applySmoothingToRate. by apply add_nan_r, mul_nan_r.
Qed.

Lemma updateRate_same calc s a :
  same_config s (updateRate calc s a).1 ∧
  same_playback a (updateRate calc s a).2.
Proof. rewrite updateRate_fields. by repeat split. Qed.

Lemma run_snoc motions calc (st : t * AudioController.t) :
  run (motions ++ [calc]) st
  = updateRate calc (run motions st).1 (run motions st).2.
Proof. unfold run. by rewrite foldl_app. Qed.

Lemma run_same motions s a :
  same_config s (run motions (s, a)).1 ∧
  same_playback a (run motions (s, a)).2.
Proof.
  induction motions as [|calc motions IH] using rev_ind.
  - by repeat split.
  - rewrite run_snoc.
    destruct IH as [Hc Hp].
    destruct (updateRate_same calc (run motions (s, a)).1 (run motions (s, a)).2)
      as [Hc' Hp'].
    unfold same_config, same_playback in *. split.
    + destruct Hc as (?&?&?&?&?&?&?), Hc' as (?&?&?&?&?&?&?).
      repeat split; congruence.
    + destruct Hp as (?&?&?&?&?), Hp' as (?&?&?&?&?).
      repeat split; congruence.
Qed.

(** X15.  A rate that is NaN stays NaN: once [currentRate] is NaN, after
    any number of further [updateRate] ticks, whatever the motion readings,
    [currentRate] and the engine's [rate] are NaN.  [resetRate] ends it: it
    sets [currentRate], [targetRate] and the engine's [rate] to the
    [baseRate] of the configuration. *)
Theorem nan_rate_persists motions calc s a :
  is_nan (currentRate s) = true →
  let st := run (motions ++ [calc]) (s, a) in
  currentRate st.1 = nan ∧
  AudioController.rate st.2 = nan ∧
  getCurrentRate (resetRate st.1 st.2).1 = baseRate s ∧
  getTargetRate (resetRate st.1 st.2).1 = baseRate s ∧
  AudioController.rate (resetRate st.1 st.2).2 = baseRate s.
Proof.
  intros Hc st.
  assert (is_nan (currentRate (run motions (s, a)).1) = true) as Hn.
  { clear st. induction motions as [|c motions IH] using rev_ind; [done|].
    rewrite run_snoc. by destruct (updateRate_nan c _ (run motions (s, a)).2 IH) as [-> _]. }
  subst st. rewrite run_snoc.
  destruct (updateRate_nan calc _ (run motions (s, a)).2 Hn) as [H1 H2].
  split; [done|]. split; [done|].
  destruct (updateRate_same calc (run motions (s, a)).1 (run motions (s, a)).2)
    as [(Hb & _) _].
  destruct (run_same motions s a) as [(Hb' & _) _].
  unfold resetRate, getCurrentRate, getTargetRate. simpl.
  repeat split; congruence.
Qed.

(** X16.  Over any run of [updateRate] ticks the configuration of the
    controller is never changed and the engine is touched in its [rate]
    only; after at least one tick the engine's [rate] is the controller's
    [currentRate], and with [minRate <= maxRate] it lies within
    [minRate, maxRate] unless it is NaN. *)
Theorem run_keeps_rate_clamped motions calc s a :
  let st := run (motions ++ [calc]) (s, a) in
  same_config s st.1 ∧
  same_playback a st.2 ∧
  AudioController.rate st.2 = getCurrentRate st.1 ∧
  ((minRate s <=? maxRate s)%float = true →
   within (minRate s) (maxRate s) (AudioController.rate st.2) = true ∨
   AudioController.rate st.2 = nan).
Proof.
  intros st.
  destruct (run_same (motions ++ [calc]) s a) as [Hc Hp].
  split; [done|]. split; [done|]. subst st. rewrite run_snoc.
  destruct (run_same motions s a) as [(_ & _ & _ & Hlo & Hhi & _) _].
  set (s1 := (run motions (s, a)).1) in *.
  set (a1 := (run motions (s, a)).2) in *.
  rewrite updateRate_fields. simpl. split; [done|].
  intros Hlohi. rewrite <- Hlo, <- Hhi in *.
  match goal with
  | |- context [Math_min _ ?x] => destruct (is_nan x) eqn:Hx
  end.
  - right. by rewrite Math_min_nan, Math_max_nan.
  - left. by apply clamp_within.
Qed.

End Laws.

Local Existing Instance Float32_binary64.
Import Examples Scenarios AccelerationToRate RunSpec.

Lemma nan_rate_persists_witness :
  is_nan (currentRate poisoned) = true ∧
  currentRate (run ([Motion 0 0; Motion 1 0] ++ [Motion 0 0])
                 (poisoned, idle_engine)).1 = nan ∧
  AudioController.rate
    (run ([Motion 0 0; Motion 1 0] ++ [Motion 0 0]) (poisoned, idle_engine)).2
  = nan.
Proof.
  assert (is_nan (currentRate poisoned) = true) as H by reflexivity.
  split; [exact H|].
  destruct (nan_rate_persists [Motion 0 0; Motion 1 0] (Motion 0 0)
              poisoned idle_engine H) as (H1 & H2 & _).
  split; [exact H1 | exact H2].
Defined.

Lemma run_keeps_rate_clamped_witness :
  (minRate defaults <=? maxRate defaults)%float = true ∧
  (RateSpec.within (minRate defaults) (maxRate defaults)
     (AudioController.rate
        (run ([Motion 9 0] ++ [Motion 0 0]) (defaults, idle_engine)).2) = true ∨
   AudioController.rate
     (run ([Motion 9 0] ++ [Motion 0 0]) (defaults, idle_engine)).2 = nan).
Proof.
  assert ((minRate defaults <=? maxRate defaults)%float = true) as H
    by reflexivity.
  split; [exact H|].
  exact (proj2 (proj2 (proj2
           (run_keeps_rate_clamped [Motion 9 0] (Motion 0 0) defaults idle_engine)))
           H).
Defined.

End RateLaws.

(** ** The motion calculator *)

Module CalculatorLaws.
Section Laws.
Context {V : Vec3}.
Import NumFacts ArithFacts AccelerationCalculator.

Implicit Types (s : t).

(** A finite time stamp minus itself is zero. *)
Lemma sub_self_nonpos (x : float) :
  is_finite x = true → (x - x <=? 0)%float = true.
Proof.
  intros Hx. rewrite FloatAxioms.leb_spec, sub_spec.
  change (Prim2SF 0) with (S754_zero false).
  destruct (is_finite_spec x Hx) as [[sx ->]|(sx & m & e & ->)].
  - by destruct sx.
  - unfold SF64sub, SFsub. by rewrite Z.sub_diag.
Qed.

(** X17.  A time step that is zero or negative is skipped:
    [updateCalculations] then changes nothing.  So does a second call at the
    same finite time stamp, wherever the target has moved, and a call at the
    time stamp of a [reset]. *)
Theorem updateCalculations_skips currentTime position position' s :
  ((currentTime - previousTime s <=? 0)%float = true →
     updateCalculations currentTime position s = s) ∧
  (is_finite currentTime = true →
     updateCalculations currentTime position'
       (updateCalculations currentTime position s)
     = updateCalculations currentTime position s) ∧
  (is_finite currentTime = true →
     updateCalculations currentTime position' (reset currentTime position s)
     = reset currentTime position s).
Proof.
  split; [|split].
  - intros Hdt. unfold updateCalculations, calculateMotionValues.
    rewrite Hdt. by destruct (hasTarget s).
  - intros Ht. pose proof (sub_self_nonpos _ Ht) as Hz.
    unfold updateCalculations, calculateMotionValues.
    destruct (hasTarget s) eqn:Hs; [|by rewrite Hs].
    destruct (currentTime - previousTime s <=? 0)%float eqn:Hdt.
    + by rewrite Hs, Hdt.
    + cbn [hasTarget previousTime]. by rewrite Hz.
  - intros Ht. pose proof (sub_self_nonpos _ Ht) as Hz.
    unfold updateCalculations, calculateMotionValues, reset.
    cbn [hasTarget previousTime]. rewrite Hz. by destruct (hasTarget s).
Qed.

End Laws.

Local Existing Instance Vec3_binary64.
Import Scenarios AccelerationCalculator.

Lemma updateCalculations_skips_witness :
  ((1.5 - previousTime calculator <=? 0)%float = true ∧
   updateCalculations 1.5 (1, 0, 0)%float calculator = calculator) ∧
  (is_finite 3.0 = true ∧
   updateCalculations 3.0 (5, 5, 5)%float
     (updateCalculations 3.0 (1, 0, 0)%float calculator)
   = updateCalculations 3.0 (1, 0, 0)%float calculator ∧
   velocityMagnitude (updateCalculations 3.0 (1, 0, 0)%float calculator)
   = 0x1.3333333333334p-2%float).
Proof.
  assert ((1.5 - previousTime calculator <=? 0)%float = true) as H1
    by reflexivity.
  assert (is_finite 3.0 = true) as H2 by reflexivity.
  destruct (updateCalculations_skips (V:=Vec3_binary64)
              1.5 (1, 0, 0)%float (0, 0, 0)%float calculator)
    as (Hskip & _ & _).
  destruct (updateCalculations_skips (V:=Vec3_binary64)
              3.0 (1, 0, 0)%float (5, 5, 5)%float calculator)
    as (_ & Htwice & _).
  split; [split; [exact H1 | exact (Hskip H1)]|].
  split; [exact H2|]. split; [exact (Htwice H2)|].
  vm_compute. reflexivity.
Defined.

End CalculatorLaws.
